(** * Percentile statistics and feature assembly of the Gn starting-protocol
      predictor ([app.py])

    The development embeds the two utility functions [get_dist_stats] and
    [percentile_rank], the sidebar form that fills [user_input], the
    feature-vector assembly ([X_core], [X_all]), the trigger-day lookup, the
    serum-E2 plotting loop and the baseline-E2 plot.  NumPy's [float64] is
    modelled by the IEEE 754 binary64 instance of the standard library's
    [SpecFloat]; Python exceptions by a small error monad. *)

From Stdlib Require Import ZArith List Bool Lia QArith Qpower Qround Qabs Lqa.
From Stdlib Require Import Floats.SpecFloat.
From stdpp Require Import gmap strings pretty.

Local Open Scope Z_scope.

(** ** Python results *)

Inductive exn : Type :=
| ValueError
| OverflowError
| KeyError (k : string).

Inductive result (A : Type) : Type :=
| Ok (a : A)
| Raise (e : exn).

Arguments Ok {A} a.
Arguments Raise {A} e.

#[global] Instance result_ret : MRet result := fun A a => Ok a.

#[global] Instance result_bind : MBind result := fun A B k r =>
  match r with
  | Ok a => k a
  | Raise e => Raise e
  end.

(** ** Rounding to the nearest integer, ties to even

    [Zrne n d] is the integer nearest to [n / d] for [0 < d]; a tie goes to
    the even neighbour, as in Python's [round] and in IEEE 754. *)
Definition Zrne (n d : Z) : Z :=
  let q := n / d in
  match 2 * (n mod d) ?= d with
  | Lt => q
  | Eq => if Z.even q then q else q + 1
  | Gt => q + 1
  end.

(** ** binary64 *)

Module F64.

Definition prec : Z := 53.
Definition emax : Z := 1024.

Abbreviation float := spec_float.

Definition nan : float := S754_nan.
Definition pinf : float := S754_infinity false.

(** conversion of a Python / NumPy integer to [float64] *)
Definition of_Z (z : Z) : float := binary_normalize prec emax z 0 false.

Definition add : float -> float -> float := SFadd prec emax.
Definition sub : float -> float -> float := SFsub prec emax.
Definition mul : float -> float -> float := SFmul prec emax.
Definition div : float -> float -> float := SFdiv prec emax.

Definition ltb : float -> float -> bool := SFltb.
Definition leb : float -> float -> bool := SFleb.
Definition eqb : float -> float -> bool := SFeqb.

(** [np.isnan] *)
Definition isnan (x : float) : bool :=
  match x with
  | S754_nan => true
  | _ => false
  end.

(** [np.isfinite] *)
Definition isfinite (x : float) : bool :=
  match x with
  | S754_zero _ | S754_finite _ _ _ => true
  | _ => false
  end.

(** magnitude of a finite float rounded to an integer, ties to even *)
Definition rint_abs (m : positive) (e : Z) : Z :=
  match e with
  | Zneg p => Zrne (Zpos m) (2 ^ Zpos p)
  | _ => Zpos m * 2 ^ e
  end.

(** [int(round(x))] on a [float64] *)
Definition round_int (x : float) : result Z :=
  match x with
  | S754_nan => Raise ValueError
  | S754_infinity _ => Raise OverflowError
  | S754_zero _ => Ok 0
  | S754_finite s m e => Ok (cond_Zopp s (rint_abs m e))
  end.

(** [np.floor(x)] as an index; only used on finite values *)
Definition floor_Z (x : float) : Z :=
  match x with
  | S754_finite s m e =>
      match e with
      | Zneg p => cond_Zopp s (Zpos m) / 2 ^ Zpos p
      | _ => cond_Zopp s (Zpos m) * 2 ^ e
      end
  | _ => 0
  end.

End F64.

Abbreviation float := F64.float.

(** ** Utility functions *)

(** [np.sum] of a boolean array *)
Definition np_sum (bs : list bool) : Z :=
  fold_right (fun (b : bool) acc => (if b then 1 else 0) + acc) 0 bs.

Definition len {A : Type} (l : list A) : Z := Z.of_nat (length l).

(** [percentile_rank(values_arr, x)]; [None] stands for Python's [None]. *)
Definition percentile_rank (values_arr : option (list float)) (x : float)
  : result (option Z) :=
  match values_arr with
  | None => Ok None
  | Some arr =>
      if F64.isnan x then Ok None
      else
        let below := np_sum (map (fun v => F64.ltb v x) arr) in
        let ratio := F64.div (F64.of_Z below) (F64.of_Z (len arr)) in
        r ← F64.round_int (F64.mul ratio (F64.of_Z 100));
        Ok (Some r)
  end.

(** *** [np.percentile], default method (linear interpolation)

    NumPy is an external collaborator of the program.  Its documented default
    takes the sorted sample [s] of size [n], the virtual index
    [h = (n - 1) * (q / 100)], and interpolates between [s[floor h]] and its
    successor with weight [h - floor h]; the interpolation is evaluated the
    way NumPy's [_lerp] does it. *)

Fixpoint insert_sorted (x : float) (l : list float) : list float :=
  match l with
  | [] => [x]
  | y :: l' =>
      if F64.leb x y || F64.isnan y then x :: l else y :: insert_sorted x l'
  end.

Definition np_sort (l : list float) : list float :=
  fold_right insert_sorted [] l.

Definition f_half : float := F64.div (F64.of_Z 1) (F64.of_Z 2).

Definition lerp (a b t : float) : float :=
  let diff_b_a := F64.sub b a in
  if F64.leb f_half t
  then F64.sub b (F64.mul diff_b_a (F64.sub (F64.of_Z 1) t))
  else F64.add a (F64.mul diff_b_a t).

Definition np_percentile (arr : list float) (q : Z) : float :=
  let s := np_sort arr in
  let n := len arr in
  let quantile := F64.div (F64.of_Z q) (F64.of_Z 100) in
  let virtual_index := F64.mul (F64.of_Z (n - 1)) quantile in
  let previous_index := F64.floor_Z virtual_index in
  let next_index := Z.min (previous_index + 1) (n - 1) in
  let gamma := F64.sub virtual_index (F64.of_Z previous_index) in
  lerp (nth (Z.to_nat previous_index) s F64.nan)
       (nth (Z.to_nat next_index) s F64.nan) gamma.

(** *** [get_dist_stats] *)

(** A reference-distribution entry: a summary [dict] or a raw sample. *)
Inductive dist_obj : Type :=
| Summary (d : gmap string float)
| RawSample (a : list float).

(** The [dict] returned by [get_dist_stats]. *)
Record stats : Type := mk_stats {
  p25 : option float;
  p50 : option float;
  p75 : option float;
  values : option (list float)
}.

Definition get_dist_stats (o : option dist_obj) : option stats :=
  match o with
  | None => None
  | Some (Summary d) =>
      Some {| p25 := d !! "p25"; p50 := d !! "p50"; p75 := d !! "p75";
              values := None |}
  | Some (RawSample a) =>
      let arr := List.filter (fun v => negb (F64.isnan v)) a in
      if len arr =? 0 then None
      else Some {| p25 := Some (np_percentile arr 25);
                   p50 := Some (np_percentile arr 50);
                   p75 := Some (np_percentile arr 75);
                   values := Some arr |}
  end.

(** ** Feature assembly *)

Definition MODEL_CORE_FEATURES : list string :=
  [ "年龄"; "体重指数"; "(基础内分泌)FSH"; "(基础内分泌)E2"; "(基础内分泌)PRL";
    "(基础内分泌)LH"; "(基础内分泌)T"; "(基础内分泌)AMH"; "左窦卵泡数"; "右窦卵泡数" ].

Definition MODEL_DYNAMIC_FEATURES : list string :=
  [ "血E2_1"; "血LH_1"; "血FSH_1"; "血P_1"; "Day_1";
    "血E2_2"; "血LH_2"; "血FSH_2"; "血P_2"; "Day_2";
    "血E2_3"; "血LH_3"; "血FSH_3"; "血P_3"; "Day_3";
    "最大卵泡测定日3"; "左侧最大卵泡直径3"; "右侧最大卵巢直径3" ].

Definition MODEL_ALL_FEATURES : list string :=
  MODEL_CORE_FEATURES ++ MODEL_DYNAMIC_FEATURES.

(** One-row data frames are maps from column names to cells.  A cell of the
    raw input is a number or Python's [None]. *)
Definition astype_float (cell : option float) : float :=
  match cell with
  | Some v => v
  | None => F64.nan
  end.

Definition fillna (fill v : float) : float :=
  if F64.isnan v then fill else v.

Definition f_zero : float := S754_zero false.

Definition input_df (user_input : gmap string (option float)) : gmap string float :=
  astype_float <$> user_input.

Definition input_df_filled (user_input : gmap string (option float))
  : gmap string float :=
  fillna f_zero <$> input_df user_input.

(** [df[cols]]: selection of columns by a list of labels, in that order;
    pandas raises [KeyError] for a label that is not a column. *)
Fixpoint select_columns (df : gmap string float) (cols : list string)
  : result (list float) :=
  match cols with
  | [] => Ok []
  | c :: cols' =>
      match df !! c with
      | None => Raise (KeyError c)
      | Some v => vs ← select_columns df cols'; Ok (v :: vs)
      end
  end.

Definition X_core (user_input : gmap string (option float)) : result (list float) :=
  select_columns (input_df_filled user_input) MODEL_CORE_FEATURES.

Definition X_all (user_input : gmap string (option float)) : result (list float) :=
  select_columns (input_df_filled user_input) MODEL_ALL_FEATURES.

(** ** Trigger-day lookup *)

(** [trigger_label_day_mapping.get(trigger_label, "N/A")] *)
Definition trigger_day_pred (trigger_label_day_mapping : gmap Z Z)
    (trigger_label : Z) : Z + string :=
  match trigger_label_day_mapping !! trigger_label with
  | Some day => inl day
  | None => inr "N/A"
  end.

(** ** Serum-E2 percentile plot *)

(** What the loop draws on the axes and appends to [percentile_text]. *)
Inductive artist : Type :=
| Line (i : Z) (lo hi : float)
| Scatter (i : Z) (val : float)
| Text (i : Z) (val : float) (pr : option Z).

Record figure : Type := mk_figure {
  ax : list artist;
  percentile_text : list (string * float * option Z)
}.

Definition draw (a : artist) (fig : figure) : figure :=
  {| ax := ax fig ++ [a]; percentile_text := percentile_text fig |}.

Definition annotate (key : string) (val : float) (pr : option Z) (fig : figure)
  : figure :=
  {| ax := ax fig; percentile_text := percentile_text fig ++ [(key, val, pr)] |}.

Definition column (df : gmap string float) (key : string) : result float :=
  match df !! key with
  | Some v => Ok v
  | None => Raise (KeyError key)
  end.

Definition plot_field (e2_percentiles : gmap string dist_obj)
    (df : gmap string float) (i : Z) (key : string) (fig : figure)
  : result figure :=
  let dist := e2_percentiles !! key in
  let stats := get_dist_stats dist in
  val ← column df key;
  match stats with
  | None => Ok fig
  | Some st =>
      let fig1 :=
        match p25 st, p75 st with
        | Some lo, Some hi => draw (Line i lo hi) fig
        | _, _ => fig
        end in
      if F64.isnan val then Ok fig1
      else
        pr ← percentile_rank (values st) val;
        Ok (annotate key val pr (draw (Text i val pr) (draw (Scatter i val) fig1)))
  end.

Fixpoint plot_loop (e2_percentiles : gmap string dist_obj)
    (df : gmap string float) (fields : list (Z * string)) (fig : figure)
  : result figure :=
  match fields with
  | [] => Ok fig
  | (i, key) :: rest =>
      fig' ← plot_field e2_percentiles df i key fig;
      plot_loop e2_percentiles df rest fig'
  end.

Definition E2_FIELDS : list (Z * string) :=
  [ (1, "血E2_1"); (2, "血E2_2"); (3, "血E2_3") ].

(** ** The input form

    The sidebar puts one number per widget into the dict [user_input];
    [number_input label] is the number the widget labelled [label] returns.
    Only the display order of the core widgets differs from the model's. *)

Definition UI_CORE_ORDER : list string :=
  [ "年龄"; "体重指数";
    "(基础内分泌)FSH"; "(基础内分泌)LH"; "(基础内分泌)PRL";
    "(基础内分泌)E2"; "(基础内分泌)T"; "(基础内分泌)AMH";
    "左窦卵泡数"; "右窦卵泡数" ].

Section Form.

Variable number_input : string -> float.

(** the body of [for i in range(1, 3 + 1)] *)
Definition monitoring_round (i : Z) (ui : gmap string (option float))
  : gmap string (option float) :=
  let ui :=
    foldl (fun ui prefix =>
             let key := prefix +:+ "_" +:+ pretty i in
             <[key := Some (number_input key)]> ui)
          ui ["血E2"; "血LH"; "血FSH"; "血P"] in
  <["Day_" +:+ pretty i := Some (number_input ("Day_" +:+ pretty i))]> ui.

Definition user_input : gmap string (option float) :=
  let ui :=
    foldl (fun ui feat => <[feat := Some (number_input feat)]> ui) ∅ UI_CORE_ORDER in
  let ui := foldl (fun ui i => monitoring_round i ui) ui [1; 2; 3] in
  let ui :=
    <["最大卵泡测定日3" := Some (number_input "Max follicle measurement day 3")]> ui in
  let ui :=
    <["左侧最大卵泡直径3" := Some (number_input "Left max follicle diameter 3")]> ui in
  <["右侧最大卵巢直径3" := Some (number_input "Right max follicle diameter 3")]> ui.

End Form.

(** ** Baseline-E2 percentile plot *)

Definition base_e2_key : string := "(基础内分泌)E2".

(** What is drawn on [ax2], in drawing order. *)
Inductive baseline_artist : Type :=
| Band (lo hi : float)
| AxHLine (y : float)
| Point (val : float).

(** What the section shows: the chart with its caption (the value and, when
    there is one, its percentile), or the warning. *)
Inductive baseline_view : Type :=
| Chart (fig2 : list baseline_artist) (val : float) (pr_base : option Z)
| Warning.

Definition baseline_plot (e2_percentiles : gmap string dist_obj)
    (df : gmap string float) : result baseline_view :=
  base_e2_val ← column df base_e2_key;
  let base_stats := get_dist_stats (e2_percentiles !! "基础E2") in
  match base_stats with
  | Some st =>
      if negb (F64.isnan base_e2_val) then
        let band :=
          match p25 st, p75 st with
          | Some lo, Some hi => [Band lo hi]
          | _, _ => []
          end in
        let median :=
          match p50 st with
          | Some m => [AxHLine m]
          | None => []
          end in
        let fig2 := band ++ median ++ [Point base_e2_val] in
        pr_base ← percentile_rank (values st) base_e2_val;
        Ok (Chart fig2 base_e2_val pr_base)
      else Ok Warning
  | None => Ok Warning
  end.

(** ** Sample inputs *)

Definition f10 : float := F64.of_Z 10.
Definition f20 : float := F64.of_Z 20.
Definition f30 : float := F64.of_Z 30.
Definition f40 : float := F64.of_Z 40.


(** 17.5, 25.0 and 32.5 *)
Definition f17_5 : float := F64.div (F64.of_Z 35) (F64.of_Z 2).
Definition f25 : float := F64.of_Z 25.
Definition f32_5 : float := F64.div (F64.of_Z 65) (F64.of_Z 2).
(** 15.0 and 35.0 *)
Definition f15 : float := F64.of_Z 15.
Definition f35 : float := F64.of_Z 35.

(** a form filled with 1.0, 2.0, ..., 28.0 in model order *)
Definition sample_cells : list (string * option float) :=
  zip MODEL_ALL_FEATURES (map (fun n => Some (F64.of_Z (Z.of_nat n))) (seq 1 28)).

Definition ui_full : gmap string (option float) := list_to_map sample_cells.



Definition empty_figure : figure := {| ax := []; percentile_text := [] |}.

(** a reference table with raw samples for the second round and the baseline *)
Definition sample_table : gmap string dist_obj :=
  <["基础E2" := RawSample [f10; F64.nan; f30]]>
    (<["血E2_2" := RawSample [f20; F64.nan]]> ∅).

(** ** Specification-level notions

    Nothing below is executed by the program: these are the integer and
    rational notions the theorems are stated with. *)

(** number of sample entries strictly below [x] *)
Definition count_lt (arr : list float) (x : float) : Z :=
  len (List.filter (fun v => F64.ltb v x) arr).

(** position of [n / d] between the integers [n / d] and [n / d + 1] *)
Definition loc_of (n d : Z) : location :=
  if n mod d =? 0 then loc_Exact else loc_Inexact (2 * (n mod d) ?= d).

(** a shift record holds the truncation of [n / d] and its position *)
Definition shr_inv (n d : Z) (mrs : shr_record) : Prop :=
  shr_m mrs = n / d /\ loc_of_shr_record mrs = loc_of n d.

(** [2 ^ e] for any integer [e] *)
Definition pow2 (e : Z) : Q := (2 ^ e)%Q.

(** nearest integer to a rational, ties to even *)
Definition Qrne (q : Q) : Z := Zrne (Qnum q) (Zpos (Qden q)).

(** real value of a float; zero for what has none *)
Definition B2Q (x : spec_float) : Q :=
  match x with
  | S754_finite s m e => (inject_Z (cond_Zopp s (Zpos m)) * pow2 e)%Q
  | _ => 0%Q
  end.

(** [d] is the binary magnitude of [v]: [2 ^ (d - 1) <= v < 2 ^ d] *)
Definition is_mag (v : Q) (d : Z) : Prop := (pow2 (d - 1) <= v < pow2 d)%Q.

(** [v] rounded to 53 significant bits, given its magnitude [d] *)
Definition rnd53 (d : Z) (v : Q) : Q :=
  (inject_Z (Qrne (v / pow2 (d - 53))) * pow2 (d - 53))%Q.

(** the binary magnitude of a positive rational *)
Definition Qmag (v : Q) : Z :=
  if Qle_bool 1 v then Zdigits2 (Qfloor v)
  else 1 - Zdigits2 (Qceiling (/ v) - 1).

(** round to nearest binary64, ties to even, in the normal range *)
Definition RN (v : Q) : Q := rnd53 (Qmag v) v.

(** positive, with a full 53-bit mantissa and an exponent in [lo, hi] *)
Definition normal53 (x : spec_float) (lo hi : Z) : Prop :=
  exists M E, x = S754_finite false M E /\ Zdigits2 (Zpos M) = 53 /\ lo <= E <= hi.

(** unit roundoff of binary64, [2 ^ -53] *)
Definition eps : Q := 1 # 9007199254740992.

(** the value [percentile_rank] computes from the count [k] and the size [n] *)
Definition rank_Q (k n : Z) : Z :=
  Qrne (RN (RN (RN (inject_Z k) / RN (inject_Z n)) * 100)).

(** largest size of a Python or NumPy container ([sys.maxsize]) *)
Definition PY_SSIZE_T_MAX : Z := 2 ^ 63 - 1.

(** every raw sample of the table fits in memory *)
Definition samples_fit (e2_percentiles : gmap string dist_obj) : Prop :=
  forall key a, e2_percentiles !! key = Some (RawSample a) -> len a <= PY_SSIZE_T_MAX.

(** the label of the widget that fills column [key] *)
Definition widget_label (key : string) : string :=
  if String.eqb key "最大卵泡测定日3" then "Max follicle measurement day 3"
  else if String.eqb key "左侧最大卵泡直径3" then "Left max follicle diameter 3"
  else if String.eqb key "右侧最大卵巢直径3" then "Right max follicle diameter 3"
  else key.

(** the reference table has statistics for [key] *)
Definition usable (e2_percentiles : gmap string dist_obj) (key : string) : bool :=
  match get_dist_stats (e2_percentiles !! key) with
  | Some _ => true
  | None => false
  end.

(** what feature assembly puts in column [c]: the supplied number, or 0.0
    for an empty or NaN cell *)
Definition cell_value (ui : gmap string (option float)) (c : string) : float :=
  match ui !! c with
  | Some (Some v) => if F64.isnan v then f_zero else v
  | _ => f_zero
  end.

(** positive, with a full 53-bit mantissa *)
Definition pnormal (x : spec_float) : Prop :=
  exists M E, x = S754_finite false M E /\ Zdigits2 (Zpos M) = 53.

(** a positive normal float between 2 ^ -948 and 2 ^ 1013 *)
Definition moderate (x : float) : Prop := normal53 x (-1000) 960.

(** the interpolation weights 0, 1/4, 1/2 and 3/4 as floats *)
Definition gamma_of (k : Z) : float :=
  match k with
  | 0 => S754_zero false
  | 1 => S754_finite false 4503599627370496 (-54)
  | 2 => S754_finite false 4503599627370496 (-53)
  | _ => S754_finite false 6755399441055744 (-53)
  end.

(** the value [lerp] computes, with [k / 4] for weight *)
Definition lerp_Q (A B : Q) (k : Z) : Q :=
  let D := RN (B - A) in
  match k with
  | 0 => A
  | 1 => RN (A + D * (1 # 4))
  | 2 => RN (B - D * (1 # 2))
  | _ => RN (B - D * (1 # 4))
  end.

(** sorted by value *)
Fixpoint sorted_Q (l : list float) : Prop :=
  match l with
  | [] => True
  | x :: l' => Forall (fun y => (B2Q x <= B2Q y)%Q) l' /\ sorted_Q l'
  end.

(** * Rounding lemmas *)

(** ** Nearest integer to a quotient *)

Lemma Zrne_floor n d : 0 < d -> n / d <= Zrne n d <= n / d + 1.
Proof.
  intros Hd. unfold Zrne.
  destruct (2 * (n mod d) ?= d); [destruct (Z.even (n / d))|..]; lia.
Qed.

Lemma Zrne_near n d : 0 < d -> 2 * Z.abs (d * Zrne n d - n) <= d.
Proof.
  intros Hd. unfold Zrne.
  pose proof (Z.div_mod n d ltac:(lia)) as E.
  pose proof (Z.mod_pos_bound n d Hd) as B.
  destruct (Z.compare_spec (2 * (n mod d)) d); [destruct (Z.even (n / d))|..]; nia.
Qed.

Lemma Zrne_mono n1 d1 n2 d2 :
  0 < d1 -> 0 < d2 -> n1 * d2 <= n2 * d1 -> Zrne n1 d1 <= Zrne n2 d2.
Proof.
  intros H1 H2 Hle.
  pose proof (Z.div_mod n1 d1 ltac:(lia)) as E1.
  pose proof (Z.mod_pos_bound n1 d1 H1) as B1.
  pose proof (Z.div_mod n2 d2 ltac:(lia)) as E2.
  pose proof (Z.mod_pos_bound n2 d2 H2) as B2.
  assert (Hq : n1 / d1 <= n2 / d2).
  { destruct (Z_lt_le_dec (n2 / d2) (n1 / d1)) as [Hlt|]; [exfalso|lia].
    assert (d1 * (n2 / d2 + 1) <= n1) by nia.
    assert (d1 * d2 * (n2 / d2 + 1) <= n1 * d2) by nia.
    assert (n2 * d1 < d1 * d2 * (n2 / d2 + 1)) by nia.
    lia. }
  destruct (Z.eq_dec (n1 / d1) (n2 / d2)) as [Heq|Hne].
  - unfold Zrne. rewrite <- Heq.
    assert (Hr : (n1 mod d1) * d2 <= (n2 mod d2) * d1) by nia.
    destruct (Z.compare_spec (2 * (n1 mod d1)) d1);
      destruct (Z.compare_spec (2 * (n2 mod d2)) d2);
      destruct (Z.even (n1 / d1)); try lia; nia.
  - pose proof (Zrne_floor n1 d1 H1). pose proof (Zrne_floor n2 d2 H2). lia.
Qed.

Lemma Zrne_exact k d : 0 < d -> Zrne (k * d) d = k.
Proof.
  intros Hd. unfold Zrne. rewrite Z.mod_mul, Z.div_mul by lia.
  destruct (Z.compare_spec (2 * 0) d); lia.
Qed.

Lemma Zrne_scale c n d : 0 < c -> 0 < d -> Zrne (c * n) (c * d) = Zrne n d.
Proof.
  intros Hc Hd. apply Z.le_antisymm; apply Zrne_mono; nia.
Qed.

(** ** Shift records

    [shr_1] halves the mantissa and keeps, in its round and sticky bits, the
    position of the exact quotient; [shr_inv] is kept by every shift. *)

Lemma shr_record_of_loc_inv n d :
  shr_inv n d (shr_record_of_loc (n / d) (loc_of n d)).
Proof.
  unfold shr_inv, shr_record_of_loc.
  destruct (loc_of n d) as [|[]]; simpl; auto.
Qed.

Lemma shr_1_eq m r s :
  0 <= m ->
  shr_1 {| shr_m := m; shr_r := r; shr_s := s |} =
  {| shr_m := m / 2; shr_r := negb (m mod 2 =? 0); shr_s := r || s |}.
Proof.
  intros Hm. destruct m as [|[p|p|]|p]; try lia; try reflexivity.
  - assert (E : Z.pos p~1 = 2 * Z.pos p + 1) by lia.
    assert (Z.pos p~1 / 2 = Z.pos p) as -> by (symmetry; apply (Z.div_unique _ _ _ 1); lia).
    assert (Z.pos p~1 mod 2 = 1) as -> by (symmetry; apply (Z.mod_unique _ _ (Z.pos p)); lia).
    reflexivity.
  - assert (E : Z.pos p~0 = 2 * Z.pos p + 0) by lia.
    assert (Z.pos p~0 / 2 = Z.pos p) as -> by (symmetry; apply (Z.div_unique _ _ _ 0); lia).
    assert (Z.pos p~0 mod 2 = 0) as -> by (symmetry; apply (Z.mod_unique _ _ (Z.pos p)); lia).
    reflexivity.
Qed.

Lemma shr_1_inv n d mrs :
  0 <= n -> 0 < d -> shr_inv n d mrs -> shr_inv n (d * 2) (shr_1 mrs).
Proof.
  intros Hn Hd [Hm Hl]. destruct mrs as [m r s]. simpl in Hm.
  unfold shr_inv, loc_of in *.
  rewrite <- Z.div_div, Z.rem_mul_r, <- Hm by lia.
  pose proof (Z.mod_pos_bound n d Hd) as B.
  pose proof (Z.div_pos n d Hn Hd) as Hq. rewrite <- Hm in Hq.
  pose proof (Z.mod_pos_bound m 2 ltac:(lia)) as B2.
  assert (Hcase : (r || s = false /\ n mod d = 0) \/ (r || s = true /\ n mod d <> 0)).
  { simpl in Hl. destruct (Z.eqb_spec (n mod d) 0); destruct r, s; simpl;
      try discriminate; auto. }
  rewrite shr_1_eq by assumption. split; [reflexivity|].
  unfold loc_of_shr_record.
  assert (Hbit : m mod 2 = 0 \/ m mod 2 = 1) by lia.
  destruct Hcase as [[-> Hr]|[-> Hr]]; destruct Hbit as [-> | ->];
    change (0 =? 0) with true; change (1 =? 0) with false; cbn [negb];
    rewrite ?Z.mul_0_r, ?Z.mul_1_r, ?Z.add_0_r;
    destruct (Z.eqb_spec (n mod d + d) 0); try lia;
    destruct (Z.eqb_spec (n mod d) 0); try lia;
    try (destruct (Z.compare_spec (2 * (n mod d + d)) (d * 2)); try lia);
    try (destruct (Z.compare_spec (2 * (n mod d)) (d * 2)); try lia);
    reflexivity.
Qed.

Lemma iter_shr_inv p : forall n d mrs,
  0 <= n -> 0 < d -> shr_inv n d mrs ->
  shr_inv n (d * 2 ^ Zpos p) (SpecFloat.iter_pos shr_1 p mrs).
Proof.
  induction p as [p IH|p IH|]; intros n d mrs Hn Hd H; simpl SpecFloat.iter_pos.
  - assert (Hp : 0 < 2 ^ Z.pos p) by (apply Z.pow_pos_nonneg; lia).
    replace (d * 2 ^ Z.pos p~1) with (d * 2 * 2 ^ Z.pos p * 2 ^ Z.pos p).
    + apply IH; [lia|nia|]. apply IH; [lia|lia|]. apply shr_1_inv; auto.
    + rewrite <- !Z.mul_assoc. f_equal.
      rewrite <- Z.pow_add_r, <- Z.pow_succ_r by lia. f_equal. lia.
  - assert (Hp : 0 < 2 ^ Z.pos p) by (apply Z.pow_pos_nonneg; lia).
    replace (d * 2 ^ Z.pos p~0) with (d * 2 ^ Z.pos p * 2 ^ Z.pos p).
    + apply IH; [lia|nia|]. apply IH; auto.
    + rewrite <- Z.mul_assoc. f_equal.
      rewrite <- Z.pow_add_r by lia. f_equal. lia.
  - rewrite Z.pow_1_r. apply shr_1_inv; auto.
Qed.

Lemma shr_inv_shift n d mrs e sh :
  0 <= n -> 0 < d -> 0 <= sh -> shr_inv n d mrs ->
  shr_inv n (d * 2 ^ sh) (fst (shr mrs e sh)) /\ snd (shr mrs e sh) = e + sh.
Proof.
  intros Hn Hd Hs H. destruct sh as [|p|p]; [| |lia].
  - cbn [shr fst snd]. rewrite Z.pow_0_r, Z.mul_1_r, Z.add_0_r. auto.
  - cbn [shr fst snd]. split; [|reflexivity]. apply iter_shr_inv; auto.
Qed.

Lemma round_nearest_even_inv n d mrs :
  0 < d -> shr_inv n d mrs ->
  round_nearest_even (shr_m mrs) (loc_of_shr_record mrs) = Zrne n d.
Proof.
  intros Hd [-> ->]. unfold loc_of, Zrne, round_nearest_even.
  pose proof (Z.mod_pos_bound n d Hd) as B.
  destruct (Z.eqb_spec (n mod d) 0) as [E|E].
  - rewrite E. destruct (Z.compare_spec (2 * 0) d); lia.
  - reflexivity.
Qed.

(** ** Number of binary digits *)

Lemma digits2_pos_spec p :
  2 ^ (Zpos (digits2_pos p) - 1) <= Zpos p < 2 ^ Zpos (digits2_pos p).
Proof.
  induction p as [p IH|p IH|]; cbn [digits2_pos];
    rewrite ?Pos2Z.inj_succ;
    try (replace (Z.succ (Z.pos (digits2_pos p)) - 1)
           with (Z.succ (Z.pos (digits2_pos p) - 1)) by lia;
         rewrite !Z.pow_succ_r by lia).
  - rewrite (Pos2Z.inj_xI p). lia.
  - rewrite (Pos2Z.inj_xO p). lia.
  - simpl. lia.
Qed.

Lemma Zdigits2_spec m :
  0 < m -> 2 ^ (Zdigits2 m - 1) <= m < 2 ^ Zdigits2 m.
Proof.
  destruct m as [|p|p]; try lia. intros _. apply digits2_pos_spec.
Qed.

Lemma Zdigits2_unique m d :
  2 ^ (d - 1) <= m < 2 ^ d -> 0 < d -> Zdigits2 m = d.
Proof.
  intros [Hlo Hhi] Hd.
  assert (Hm : 0 < m).
  { pose proof (Z.pow_pos_nonneg 2 (d - 1)). lia. }
  pose proof (Zdigits2_spec m Hm) as [Hlo' Hhi'].
  assert (0 < Zdigits2 m) by (destruct m; simpl; lia).
  destruct (Z.lt_trichotomy (Zdigits2 m) d) as [Hlt|[Heq|Hgt]]; [exfalso|assumption|exfalso].
  - assert (2 ^ Zdigits2 m <= 2 ^ (d - 1)) by (apply Z.pow_le_mono_r; lia). lia.
  - assert (2 ^ d <= 2 ^ (Zdigits2 m - 1)) by (apply Z.pow_le_mono_r; lia). lia.
Qed.

(** ** [binary_round_aux] in the normal range

    The mantissa [n / d] with position [loc_of n d] at exponent [ex] stands
    for the exact value [n / d * 2 ^ ex]; [binary_round_aux] shifts it to 53
    bits and rounds to nearest even. *)

Lemma bra_normal n d ex :
  0 < d -> 0 < n / d ->
  let dg := Zdigits2 (n / d) + ex in
  ex <= dg - 53 -> -1074 <= dg - 53 -> dg <= 1023 ->
  exists M E,
    binary_round_aux 53 1024 false (n / d) ex (loc_of n d) = S754_finite false M E
    /\ Zdigits2 (Zpos M) = 53
    /\ dg - 53 <= E <= dg - 52
    /\ Zpos M * 2 ^ (E - (dg - 53)) = Zrne n (d * 2 ^ (dg - 53 - ex)).
Proof.
  intros Hd Hq dg Hex Hlo Hhi.
  assert (Hn : 0 <= n).
  { destruct (Z_lt_le_dec n 0) as [Hneg|]; [|assumption].
    pose proof (Z.div_lt_upper_bound n d 0 Hd ltac:(lia)). lia. }
  set (sh := dg - 53 - ex).
  assert (Hsh : fexp 53 1024 (Zdigits2 (n / d) + ex) - ex = sh).
  { unfold fexp, emin, sh, dg. lia. }
  unfold binary_round_aux, shr_fexp. rewrite Hsh.
  destruct (shr_inv_shift n d (shr_record_of_loc (n / d) (loc_of n d)) ex sh)
    as [Hinv He]; try lia; [apply shr_record_of_loc_inv|].
  destruct (shr (shr_record_of_loc (n / d) (loc_of n d)) ex sh) as [mrs' e'].
  cbn [fst snd] in Hinv, He.
  assert (Hp : 0 < 2 ^ sh) by (apply Z.pow_pos_nonneg; lia).
  assert (Hd' : 0 < d * 2 ^ sh) by (apply Z.mul_pos_pos; lia).
  rewrite (round_nearest_even_inv n (d * 2 ^ sh)) by auto.
  set (M0 := Zrne n (d * 2 ^ sh)).
  pose proof (Zdigits2_spec (n / d) Hq) as [Dlo Dhi].
  replace (Zdigits2 (n / d)) with (sh + 53) in Dlo, Dhi by (unfold sh, dg; lia).
  pose proof (Z.div_mod n d ltac:(lia)) as Ediv.
  pose proof (Z.mod_pos_bound n d Hd) as Bmod.
  assert (HM0lo : 2 ^ 52 <= M0).
  { rewrite <- (Zrne_exact (2 ^ 52) (d * 2 ^ sh)) by assumption.
    apply Zrne_mono; try assumption.
    replace (sh + 53 - 1) with (52 + sh) in Dlo by lia.
    rewrite Z.pow_add_r in Dlo by lia.
    apply Z.mul_le_mono_nonneg_r; [lia|].
    assert (d * (2 ^ 52 * 2 ^ sh) <= d * (n / d)) by (apply Z.mul_le_mono_nonneg_l; lia).
    lia. }
  assert (HM0hi : M0 <= 2 ^ 53).
  { rewrite <- (Zrne_exact (2 ^ 53) (d * 2 ^ sh)) by assumption.
    apply Zrne_mono; try assumption.
    replace (sh + 53) with (53 + sh) in Dhi by lia.
    rewrite Z.pow_add_r in Dhi by lia.
    apply Z.mul_le_mono_nonneg_r; [lia|].
    assert (d * (n / d + 1) <= d * (2 ^ 53 * 2 ^ sh)) by (apply Z.mul_le_mono_nonneg_l; lia).
    lia. }
  destruct (Z.eq_dec M0 (2 ^ 53)) as [Heq|Hne].
  - rewrite Heq. 
    replace (fexp 53 1024 (Zdigits2 (2 ^ 53) + e') - e') with 1
      by (change (Zdigits2 (2 ^ 53)) with 54; unfold fexp, emin; lia).
    cbn [shr shr_record_of_loc SpecFloat.iter_pos]. 
    change (shr_m (shr_1 {| shr_m := 2 ^ 53; shr_r := false; shr_s := false |}))
      with (Z.pos (2 ^ 52)).
    cbv iota beta.
    replace (e' + 1 <=? 1024 - 53) with true by (symmetry; apply Z.leb_le; lia).
    exists (2 ^ 52)%positive, (e' + 1).
    split; [reflexivity|]. split; [reflexivity|]. split; [lia|].
    replace (e' + 1 - (dg - 53)) with 1 by lia. reflexivity.
  - assert (HdM : Zdigits2 M0 = 53) by (apply Zdigits2_unique; lia).
    rewrite HdM.
    replace (fexp 53 1024 (53 + e') - e') with 0 by (unfold fexp, emin; lia).
    cbn [shr shr_record_of_loc shr_m].
    destruct M0 as [|M|M] eqn:EM; try lia.
    replace (e' <=? 1024 - 53) with true by (symmetry; apply Z.leb_le; lia).
    exists M, e'.
    split; [reflexivity|]. split; [exact HdM|]. split; [lia|].
    replace (e' - (dg - 53)) with 0 by lia. rewrite Z.pow_0_r, Z.mul_1_r.
    reflexivity.
Qed.

(** ** Powers of two as rationals *)

Lemma pow2_pos e : (0 < pow2 e)%Q.
Proof. apply Qpower_0_lt. reflexivity. Qed.

Lemma pow2_add a b : (pow2 (a + b) == pow2 a * pow2 b)%Q.
Proof. apply Qpower_plus. discriminate. Qed.

Lemma pow2_Z e : 0 <= e -> (pow2 e == inject_Z (2 ^ e))%Q.
Proof. intros He. unfold pow2. rewrite Zpower_Qpower by assumption. reflexivity. Qed.

Lemma pow2_le a b : a <= b -> (pow2 a <= pow2 b)%Q.
Proof. intros H. apply Qpower_le_compat_l; [assumption|]. discriminate. Qed.

Lemma pow2_lt_inv a b : (pow2 a < pow2 b)%Q -> a < b.
Proof.
  intros H. destruct (Z_lt_le_dec a b) as [|Hle]; [assumption|exfalso].
  apply pow2_le in Hle. lra.
Qed.

Lemma pow2_sub a b : (pow2 (a - b) == pow2 a / pow2 b)%Q.
Proof.
  pose proof (pow2_add (a - b) b) as H. replace (a - b + b) with a in H by lia.
  pose proof (pow2_pos b). rewrite H. field. lra.
Qed.

(** ** Rounding a rational to an integer *)

Lemma Qrne_mono q1 q2 : (q1 <= q2)%Q -> Qrne q1 <= Qrne q2.
Proof. intros H. apply Zrne_mono; try lia. exact H. Qed.

Lemma Qrne_comp q1 q2 : (q1 == q2)%Q -> Qrne q1 = Qrne q2.
Proof. intros H. apply Z.le_antisymm; apply Qrne_mono; rewrite H; apply Qle_refl. Qed.

#[global] Instance Qrne_proper : Proper (Qeq ==> eq) Qrne.
Proof. exact Qrne_comp. Qed.

Lemma Qrne_inject_Z z : Qrne (inject_Z z) = z.
Proof. unfold Qrne, inject_Z. simpl. rewrite <- (Z.mul_1_r z) at 1. apply Zrne_exact. lia. Qed.

Lemma Qrne_div n d : 0 < d -> Qrne (inject_Z n / inject_Z d) = Zrne n d.
Proof.
  intros Hd. destruct d as [|p|p]; try lia.
  rewrite <- Qmake_Qdiv. reflexivity.
Qed.

Lemma Qrne_near q : (Qabs (inject_Z (Qrne q) - q) <= 1 # 2)%Q.
Proof.
  destruct q as [n d]. unfold Qrne. simpl Qnum. simpl Qden.
  pose proof (Zrne_near n (Zpos d) ltac:(lia)) as H.
  apply Qabs_Qle_condition. unfold Qle, Qminus, Qplus, Qopp, inject_Z; simpl.
  lia.
Qed.

(** ** Rounding a rational to 53 bits *)

Lemma is_mag_scaled v d :
  is_mag v d -> (inject_Z (2 ^ 52) <= v / pow2 (d - 53) < inject_Z (2 ^ 53))%Q.
Proof.
  intros [Hlo Hhi].
  pose proof (pow2_pos (d - 53)) as Hp.
  rewrite <- !pow2_Z by lia.
  assert (E1 : (pow2 (d - 1) == pow2 52 * pow2 (d - 53))%Q)
    by (rewrite <- pow2_add; replace (52 + (d - 53)) with (d - 1) by lia; reflexivity).
  assert (E2 : (pow2 d == pow2 53 * pow2 (d - 53))%Q)
    by (rewrite <- pow2_add; replace (53 + (d - 53)) with d by lia; reflexivity).
  rewrite E1 in Hlo. rewrite E2 in Hhi.
  split.
  - apply Qle_shift_div_l; assumption.
  - apply Qlt_shift_div_r; assumption.
Qed.

Lemma Qrne_mag v d :
  is_mag v d -> 2 ^ 52 <= Qrne (v / pow2 (d - 53)) <= 2 ^ 53.
Proof.
  intros H. apply is_mag_scaled in H as [Hlo Hhi]. split.
  - rewrite <- (Qrne_inject_Z (2 ^ 52)). apply Qrne_mono, Hlo.
  - rewrite <- (Qrne_inject_Z (2 ^ 53)). apply Qrne_mono, Qlt_le_weak, Hhi.
Qed.

Lemma rnd53_bounds v d :
  is_mag v d -> (pow2 (d - 1) <= rnd53 d v <= pow2 d)%Q.
Proof.
  intros H. pose proof (Qrne_mag v d H) as [Hlo Hhi].
  pose proof (pow2_pos (d - 53)) as Hp. unfold rnd53.
  assert (E1 : (pow2 (d - 1) == inject_Z (2 ^ 52) * pow2 (d - 53))%Q)
    by (rewrite <- pow2_Z, <- pow2_add by lia;
        replace (52 + (d - 53)) with (d - 1) by lia; reflexivity).
  assert (E2 : (pow2 d == inject_Z (2 ^ 53) * pow2 (d - 53))%Q)
    by (rewrite <- pow2_Z, <- pow2_add by lia;
        replace (53 + (d - 53)) with d by lia; reflexivity).
  rewrite E1, E2. split; apply Qmult_le_compat_r; try lra;
    rewrite <- Zle_Qle; assumption.
Qed.

Lemma is_mag_le v1 d1 v2 d2 :
  is_mag v1 d1 -> is_mag v2 d2 -> (v1 <= v2)%Q -> d1 <= d2.
Proof.
  intros [L1 H1] [L2 H2] Hle.
  assert (Hlt : (pow2 (d1 - 1) < pow2 d2)%Q) by lra.
  apply pow2_lt_inv in Hlt. lia.
Qed.

Lemma rnd53_mono v1 d1 v2 d2 :
  is_mag v1 d1 -> is_mag v2 d2 -> (v1 <= v2)%Q -> (rnd53 d1 v1 <= rnd53 d2 v2)%Q.
Proof.
  intros M1 M2 Hle.
  pose proof (is_mag_le _ _ _ _ M1 M2 Hle) as Hd.
  destruct (Z.eq_dec d1 d2) as [->|Hne].
  - unfold rnd53. pose proof (pow2_pos (d2 - 53)) as Hp.
    apply Qmult_le_compat_r; [|lra].
    rewrite <- Zle_Qle. apply Qrne_mono.
    apply Qmult_le_compat_r; [assumption|].
    apply Qlt_le_weak, Qinv_lt_0_compat, Hp.
  - pose proof (rnd53_bounds _ _ M1) as [_ B1].
    pose proof (rnd53_bounds _ _ M2) as [B2 _].
    assert (pow2 d1 <= pow2 (d2 - 1))%Q by (apply pow2_le; lia).
    lra.
Qed.

Lemma rnd53_err v d :
  is_mag v d -> (Qabs (rnd53 d v - v) <= pow2 (d - 54))%Q.
Proof.
  intros H. unfold rnd53.
  pose proof (pow2_pos (d - 53)) as Hp.
  set (u := pow2 (d - 53)) in *.
  pose proof (Qrne_near (v / u)) as Hn.
  assert (Eh : (pow2 (d - 54) == (1 # 2) * u)%Q).
  { unfold u. replace (d - 54) with (-1 + (d - 53)) by lia.
    rewrite pow2_add. reflexivity. }
  rewrite Eh.
  assert (Ev : (inject_Z (Qrne (v / u)) * u - v == (inject_Z (Qrne (v / u)) - v / u) * u)%Q)
    by (field; lra).
  rewrite Ev, Qabs_Qmult, (Qabs_pos u) by lra.
  apply Qmult_le_compat_r; [assumption|lra].
Qed.

(** ** The value [binary_round_aux] returns *)

Lemma Qdiv_floor_bounds n d :
  0 < d -> (inject_Z (n / d) <= inject_Z n / inject_Z d < inject_Z (n / d + 1))%Q.
Proof.
  intros Hd.
  pose proof (Z.div_mod n d ltac:(lia)) as E.
  pose proof (Z.mod_pos_bound n d Hd) as B.
  assert (Hdq : (0 < inject_Z d)%Q) by (rewrite <- (Zlt_Qlt 0); assumption).
  split.
  - apply Qle_shift_div_l; [assumption|].
    rewrite <- inject_Z_mult, <- Zle_Qle. nia.
  - apply Qlt_shift_div_r; [assumption|].
    rewrite <- inject_Z_mult, <- Zlt_Qlt. nia.
Qed.

Lemma bra_normal_Q n d ex :
  0 < d -> 0 < n / d ->
  let dg := Zdigits2 (n / d) + ex in
  let v := (inject_Z n / inject_Z d * pow2 ex)%Q in
  ex <= dg - 53 -> -1074 <= dg - 53 -> dg <= 1023 ->
  exists M E,
    binary_round_aux 53 1024 false (n / d) ex (loc_of n d) = S754_finite false M E
    /\ Zdigits2 (Zpos M) = 53
    /\ dg - 53 <= E <= dg - 52
    /\ is_mag v dg
    /\ (B2Q (S754_finite false M E) == rnd53 dg v)%Q.
Proof.
  intros Hd Hq dg v Hex Hlo Hhi.
  destruct (bra_normal n d ex Hd Hq Hex Hlo Hhi) as (M & E & Hbra & HdM & HE & Hval).
  fold dg in HE, Hval.
  exists M, E. split; [exact Hbra|]. split; [exact HdM|]. split; [exact HE|].
  assert (Hdq : (0 < inject_Z d)%Q) by (rewrite <- (Zlt_Qlt 0); assumption).
  pose proof (pow2_pos ex) as Hpe.
  split.
  - pose proof (Zdigits2_spec (n / d) Hq) as [Dlo Dhi].
    pose proof (Qdiv_floor_bounds n d Hd) as [Flo Fhi].
    assert (0 < Zdigits2 (n / d)) by (destruct (n / d); simpl; lia).
    unfold is_mag, v, dg.
    replace (Zdigits2 (n / d) + ex - 1) with (Zdigits2 (n / d) - 1 + ex) by lia.
    rewrite !pow2_add.
    rewrite (pow2_Z (Zdigits2 (n / d) - 1)), (pow2_Z (Zdigits2 (n / d))) by lia.
    rewrite Zle_Qle in Dlo. apply Zlt_le_succ in Dhi. rewrite Zle_Qle in Dhi.
    unfold Z.succ in Dhi.
    set (r := (inject_Z n / inject_Z d)%Q) in *.
    split.
    + apply Qmult_le_compat_r; [|lra]. apply (Qle_trans _ _ _ Dlo Flo).
    + apply Qmult_lt_compat_r; [lra|]. apply (Qlt_le_trans _ _ _ Fhi Dhi).
  - unfold B2Q, rnd53, cond_Zopp.
    set (e0 := dg - 53) in *. set (sh := e0 - ex).
    assert (Hp0 : (0 < pow2 e0)%Q) by apply pow2_pos.
    assert (Hps : (0 < inject_Z (2 ^ sh))%Q).
    { rewrite <- (Zlt_Qlt 0). apply Z.pow_pos_nonneg; unfold sh; lia. }
    assert (Ev : (v / pow2 e0 == inject_Z n / inject_Z (d * 2 ^ sh))%Q).
    { unfold v. replace ex with (e0 - sh) by (unfold sh; lia).
      rewrite pow2_sub, (pow2_Z sh), inject_Z_mult by (unfold sh; lia).
      field. lra. }
    rewrite Ev, Qrne_div by (apply Z.mul_pos_pos; [lia|apply Z.pow_pos_nonneg; unfold sh; lia]).
    subst sh e0. rewrite <- Hval.
    replace E with (E - (dg - 53) + (dg - 53)) at 1 by lia.
    rewrite pow2_add, pow2_Z, inject_Z_mult by lia. ring.
Qed.

(** ** Magnitude as a function, and [RN] *)

Lemma is_mag_unique v d1 d2 : is_mag v d1 -> is_mag v d2 -> d1 = d2.
Proof.
  intros H1 H2. apply Z.le_antisymm; eapply is_mag_le; eauto; apply Qle_refl.
Qed.

Lemma Qinv_le_anti a b : (0 < a -> a <= b -> / b <= / a)%Q.
Proof.
  intros Ha Hab. apply Qle_shift_inv_l; [assumption|].
  rewrite Qmult_comm. apply Qle_shift_div_r; lra.
Qed.

Lemma Qinv_lt_anti a b : (0 < a -> a < b -> / b < / a)%Q.
Proof.
  intros Ha Hab. apply Qlt_shift_inv_l; [assumption|].
  rewrite Qmult_comm. apply Qlt_shift_div_r; lra.
Qed.

Lemma Qmag_spec v : (0 < v)%Q -> is_mag v (Qmag v).
Proof.
  intros Hv. unfold Qmag, is_mag.
  destruct (Qle_bool 1 v) eqn:Hb.
  - apply Qle_bool_iff in Hb.
    assert (Hf : 1 <= Qfloor v).
    { change 1 with (Qfloor 1). apply Qfloor_resp_le, Hb. }
    pose proof (Zdigits2_spec (Qfloor v) ltac:(lia)) as [Dlo Dhi].
    assert (0 < Zdigits2 (Qfloor v)) by (destruct (Qfloor v); simpl; lia).
    pose proof (Qfloor_le v) as F1. pose proof (Qlt_floor v) as F2.
    rewrite (pow2_Z (Zdigits2 (Qfloor v) - 1)), (pow2_Z (Zdigits2 (Qfloor v))) by lia.
    rewrite Zle_Qle in Dlo. apply Zlt_le_succ in Dhi. rewrite Zle_Qle in Dhi.
    unfold Z.succ in Dhi. split; [eapply Qle_trans; eauto|eapply Qlt_le_trans; eauto].
  - assert (Hlt : (v < 1)%Q).
    { apply Qnot_le_lt. intros H. apply Qle_bool_iff in H. congruence. }
    set (w := (/ v)%Q).
    assert (Hw : (1 < w)%Q).
    { unfold w. apply Qlt_shift_inv_l; [assumption|lra]. }
    pose proof (Qle_ceiling w) as C1. pose proof (Qceiling_lt w) as C2.
    assert (Hc : 1 <= Qceiling w - 1).
    { assert (1 < Qceiling w); [|lia]. rewrite Zlt_Qlt.
      change (inject_Z 1) with 1%Q. lra. }
    pose proof (Zdigits2_spec (Qceiling w - 1) ltac:(lia)) as [Dlo Dhi].
    set (D := Zdigits2 (Qceiling w - 1)) in *.
    assert (0 < D) by (unfold D; destruct (Qceiling w - 1); simpl; lia).
    rewrite Zle_Qle in Dlo. apply Zlt_le_succ in Dhi. rewrite Zle_Qle in Dhi.
    unfold Z.succ in Dhi.
    replace (Qceiling w - 1 + 1) with (Qceiling w) in Dhi by lia.
    rewrite <- (pow2_Z (D - 1)) in Dlo by lia. rewrite <- (pow2_Z D) in Dhi by lia.
    assert (Ev : (v == / w)%Q) by (unfold w; rewrite Qinv_involutive; reflexivity).
    replace (1 - D - 1) with (- D) by lia. replace (1 - D) with (- (D - 1)) by lia.
    unfold pow2 at 1 2. rewrite !Qpower_opp. fold (pow2 D). fold (pow2 (D - 1)).
    pose proof (pow2_pos D). pose proof (pow2_pos (D - 1)).
    rewrite Ev. split.
    + apply Qinv_le_anti; lra.
    + apply Qinv_lt_anti; lra.
Qed.

Lemma RN_eq v d : is_mag v d -> RN v = rnd53 d v.
Proof.
  intros H. unfold RN. f_equal. apply (is_mag_unique v); [|assumption].
  apply Qmag_spec. destruct H as [H _]. pose proof (pow2_pos (d - 1)). lra.
Qed.

Lemma RN_mono v1 v2 : (0 < v1 -> v1 <= v2 -> RN v1 <= RN v2)%Q.
Proof.
  intros H1 H12. apply rnd53_mono; try assumption; apply Qmag_spec; lra.
Qed.

#[global] Instance RN_proper : Proper (Qeq ==> Qeq) RN.
Proof.
  intros v1 v2 E. unfold RN.
  destruct (Qlt_le_dec 0 v1) as [Hpos|Hneg].
  - apply Qle_antisym; apply rnd53_mono; try (apply Qmag_spec); lra.
  - assert (Em : Qmag v1 = Qmag v2).
    { assert (E1 : Qle_bool 1 v1 = Qle_bool 1 v2) by (rewrite E; reflexivity).
      assert (E2 : Qfloor v1 = Qfloor v2) by (rewrite E; reflexivity).
      assert (E3 : Qceiling (/ v1) = Qceiling (/ v2)) by (rewrite E; reflexivity).
      unfold Qmag. rewrite E1, E2, E3. reflexivity. }
    rewrite Em. unfold rnd53. rewrite E. reflexivity.
Qed.

Lemma RN_err v : (0 < v -> Qabs (RN v - v) <= v * pow2 (-53))%Q.
Proof.
  intros Hv. pose proof (Qmag_spec v Hv) as Hm.
  eapply Qle_trans; [apply rnd53_err, Hm|].
  destruct Hm as [Hlo _].
  replace (Qmag v - 54) with (Qmag v - 1 + -53) by lia. rewrite pow2_add.
  apply Qmult_le_compat_r; [assumption|]. apply Qlt_le_weak, pow2_pos.
Qed.

Lemma RN_pos v : (0 < v -> 0 < RN v)%Q.
Proof.
  intros Hv. pose proof (rnd53_bounds _ _ (Qmag_spec v Hv)) as [H _].
  pose proof (pow2_pos (Qmag v - 1)). unfold RN. lra.
Qed.

(** ** Conversion from integers, multiplication and division *)

Lemma loc_of_1 n : loc_of n 1 = loc_Exact.
Proof. unfold loc_of. rewrite Z.mod_1_r. reflexivity. Qed.

Lemma bra_exact_Q m ex :
  0 < m ->
  let dg := Zdigits2 m + ex in
  ex <= dg - 53 -> -1074 <= dg - 53 -> dg <= 1023 ->
  normal53 (binary_round_aux 53 1024 false m ex loc_Exact) (dg - 53) (dg - 52)
  /\ (B2Q (binary_round_aux 53 1024 false m ex loc_Exact) == RN (inject_Z m * pow2 ex))%Q.
Proof.
  intros Hm dg H1 H2 H3.
  pose proof (bra_normal_Q m 1 ex ltac:(lia)) as H.
  rewrite Z.div_1_r, loc_of_1 in H.
  destruct (H Hm H1 H2 H3) as (M & E & Hbra & HdM & HE & Hmag & Hval).
  rewrite Hbra. split.
  - exists M, E. auto.
  - rewrite Hval. fold dg in Hmag |- *.
    assert (Ev : (inject_Z m / inject_Z 1 * pow2 ex == inject_Z m * pow2 ex)%Q)
      by (change (inject_Z 1) with 1%Q; field).
    rewrite <- Ev. rewrite (RN_eq _ _ Hmag). reflexivity.
Qed.

Lemma Pos_iter_xO m p : Zpos (Pos.iter xO m p) = Zpos m * 2 ^ Zpos p.
Proof.
  induction p as [|p IH] using Pos.peano_ind.
  - simpl. lia.
  - rewrite Pos.iter_succ, Pos2Z.inj_xO, IH, Pos2Z.inj_succ, Z.pow_succ_r by lia. ring.
Qed.

Lemma shl_align_spec mx ex ex' :
  snd (shl_align mx ex ex') = Z.min ex ex'
  /\ Zpos (fst (shl_align mx ex ex')) = Zpos mx * 2 ^ (ex - Z.min ex ex').
Proof.
  unfold shl_align. destruct (ex' - ex) as [|d|d] eqn:E; cbn [fst snd].
  - replace (Z.min ex ex') with ex by lia. rewrite Z.sub_diag. split; lia.
  - replace (Z.min ex ex') with ex by lia. rewrite Z.sub_diag. split; lia.
  - replace (Z.min ex ex') with ex' by lia. split; [reflexivity|].
    rewrite Pos_iter_xO. f_equal. f_equal. lia.
Qed.

Lemma Zdigits2_shift m s : 0 < m -> 0 <= s -> Zdigits2 (m * 2 ^ s) = Zdigits2 m + s.
Proof.
  intros Hm Hs. pose proof (Zdigits2_spec m Hm) as [Dlo Dhi].
  assert (0 < Zdigits2 m) by (destruct m; simpl; lia).
  assert (0 < 2 ^ s) by (apply Z.pow_pos_nonneg; lia).
  apply Zdigits2_unique; [|lia].
  replace (Zdigits2 m + s - 1) with (Zdigits2 m - 1 + s) by lia.
  rewrite !Z.pow_add_r by lia. nia.
Qed.

Lemma of_Z_spec k :
  0 < k -> Zdigits2 k <= 1023 ->
  normal53 (F64.of_Z k) (Zdigits2 k - 53) (Zdigits2 k - 52)
  /\ (B2Q (F64.of_Z k) == RN (inject_Z k))%Q.
Proof.
  intros Hk Hd. destruct k as [|p|p]; try lia.
  unfold F64.of_Z, F64.prec, F64.emax, binary_normalize, binary_round.
  pose proof (shl_align_spec p 0 (fexp 53 1024 (Z.pos (digits2_pos p) + 0))) as [He Hmz].
  destruct (shl_align p 0 (fexp 53 1024 (Z.pos (digits2_pos p) + 0))) as [mz ez].
  cbn [fst snd] in He, Hmz. change (Z.pos (digits2_pos p)) with (Zdigits2 (Z.pos p)) in *.
  set (D := Zdigits2 (Z.pos p)) in *.
  assert (HD : 0 < D) by (unfold D; simpl; lia).
  assert (Hez : ez = Z.min 0 (D - 53)) by (rewrite He; unfold fexp, emin; lia).
  assert (Hdg : Zdigits2 (Z.pos mz) + ez = D).
  { rewrite Hmz, Zdigits2_shift by lia. fold D. lia. }
  pose proof (bra_exact_Q (Z.pos mz) ez ltac:(lia)) as H. cbv zeta in H.
  rewrite Hdg in H. destruct H as [Hn Hv]; try lia.
  split; [exact Hn|]. rewrite Hv. apply RN_proper.
  rewrite Hmz, inject_Z_mult, <- pow2_Z, <- Qmult_assoc, <- pow2_add by lia.
  rewrite <- He. replace (0 - ez + ez) with 0 by lia. change (pow2 0) with 1%Q. ring.
Qed.

Lemma Zdigits2_bounds m a b :
  0 <= a -> 2 ^ a <= m < 2 ^ b -> a < Zdigits2 m <= b.
Proof.
  intros Ha [Hlo Hhi].
  assert (Hm : 0 < m) by (pose proof (Z.pow_pos_nonneg 2 a); lia).
  pose proof (Zdigits2_spec m Hm) as [Dlo Dhi].
  assert (0 < Zdigits2 m) by (destruct m; simpl; lia).
  split.
  - apply (Z.pow_lt_mono_r_iff 2); lia.
  - assert (Zdigits2 m - 1 < b); [|lia].
    apply (Z.pow_lt_mono_r_iff 2); try lia.
    destruct (Z_lt_le_dec b 0); [|lia].
    rewrite Z.pow_neg_r in Hhi by assumption. lia.
Qed.

Lemma B2Q_pos M E : (B2Q (S754_finite false M E) == inject_Z (Zpos M) * pow2 E)%Q.
Proof. reflexivity. Qed.

Lemma mul_spec mx ex my ey :
  Zdigits2 (Zpos mx) = 53 -> Zdigits2 (Zpos my) = 53 ->
  -1126 <= ex + ey <= 917 ->
  let x := S754_finite false mx ex in
  let y := S754_finite false my ey in
  normal53 (F64.mul x y) (ex + ey + 52) (ex + ey + 54)
  /\ (B2Q (F64.mul x y) == RN (B2Q x * B2Q y))%Q.
Proof.
  intros Hx Hy He x y. unfold F64.mul, F64.prec, F64.emax, x, y. cbn [SFmul xorb].
  pose proof (Zdigits2_spec (Zpos mx) ltac:(lia)) as Bx. rewrite Hx in Bx.
  pose proof (Zdigits2_spec (Zpos my) ltac:(lia)) as By. rewrite Hy in By.
  assert (HD : 104 < Zdigits2 (Z.pos (mx * my)) <= 106).
  { apply Zdigits2_bounds; [lia|]. rewrite Pos2Z.inj_mul.
    change (2 ^ 104) with (2 ^ 52 * 2 ^ 52). change (2 ^ 106) with (2 ^ 53 * 2 ^ 53).
    simpl (53 - 1) in *. nia. }
  pose proof (bra_exact_Q (Z.pos (mx * my)) (ex + ey) ltac:(lia)) as H. cbv zeta in H.
  destruct H as [Hn Hv]; try lia.
  split.
  - destruct Hn as (M & E & -> & HdM & HE). exists M, E. repeat split; auto; lia.
  - rewrite Hv. apply RN_proper. rewrite !B2Q_pos, Pos2Z.inj_mul, inject_Z_mult, pow2_add.
    ring.
Qed.

Lemma new_location_loc_of n d : 0 < d -> new_location d (n mod d) = loc_of n d.
Proof.
  intros Hd. pose proof (Z.mod_pos_bound n d Hd) as B.
  unfold new_location, new_location_even, new_location_odd, loc_of.
  destruct (Z.even d) eqn:Ev; [reflexivity|].
  destruct (Z.eqb_spec (n mod d) 0); [reflexivity|].
  assert (Ho : Z.odd d = true) by (rewrite <- Z.negb_even, Ev; reflexivity).
  apply Z.odd_spec in Ho. destruct Ho as [j Hj].
  destruct (Z.compare_spec (2 * (n mod d) + 1) d);
    destruct (Z.compare_spec (2 * (n mod d)) d); try reflexivity; lia.
Qed.

Lemma div_spec mx ex my ey :
  Zdigits2 (Zpos mx) = 53 -> Zdigits2 (Zpos my) = 53 ->
  -1021 <= ex - ey <= 1022 ->
  let x := S754_finite false mx ex in
  let y := S754_finite false my ey in
  normal53 (F64.div x y) (ex - ey - 53) (ex - ey - 51)
  /\ (B2Q (F64.div x y) == RN (B2Q x / B2Q y))%Q.
Proof.
  intros Hx Hy He x y. unfold F64.div, F64.prec, F64.emax, x, y. cbn [SFdiv xorb].
  unfold SFdiv_core_binary. rewrite Hx, Hy.
  replace (Z.min (fexp 53 1024 (53 + ex - (53 + ey))) (ex - ey)) with (ex - ey - 53)
    by (unfold fexp, emin; lia).
  replace (ex - ey - (ex - ey - 53)) with 53 by lia.
  cbv iota. rewrite Z.shiftl_mul_pow2 by lia.
  set (n := Z.pos mx * 2 ^ 53).
  assert (Hde : Z.div_eucl n (Z.pos my) = (n / Z.pos my, n mod Z.pos my)).
  { unfold Z.div, Z.modulo. destruct (Z.div_eucl n (Z.pos my)). reflexivity. }
  rewrite Hde, new_location_loc_of by lia.
  pose proof (Zdigits2_spec (Zpos mx) ltac:(lia)) as Bx. rewrite Hx in Bx.
  pose proof (Zdigits2_spec (Zpos my) ltac:(lia)) as By. rewrite Hy in By.
  simpl (53 - 1) in *.
  assert (Hq : 2 ^ 52 <= n / Z.pos my < 2 ^ 54).
  { split.
    - apply Z.div_le_lower_bound; [lia|]. unfold n. nia.
    - apply Z.div_lt_upper_bound; [lia|]. unfold n.
      change (2 ^ 54) with (2 ^ 53 * 2) in *. nia. }
  assert (HD : 52 < Zdigits2 (n / Z.pos my) <= 54) by (apply Zdigits2_bounds; lia).
  pose proof (bra_normal_Q n (Z.pos my) (ex - ey - 53) ltac:(lia) ltac:(lia)) as H.
  cbv zeta in H.
  destruct H as (M & E & -> & HdM & HE & Hmag & Hval); try lia.
  split.
  - exists M, E. repeat split; auto; lia.
  - rewrite Hval, <- (RN_eq _ _ Hmag). apply RN_proper.
    rewrite !B2Q_pos. unfold n. rewrite inject_Z_mult, <- pow2_Z by lia.
    replace ex with (ex - ey - 53 + 53 + ey) at 2 by lia.
    rewrite !pow2_add.
    pose proof (pow2_pos ey). pose proof (pow2_pos 53). 
    assert (0 < inject_Z (Z.pos my))%Q by (rewrite <- (Zlt_Qlt 0); lia).
    field. split; lra.
Qed.

(** ** The rank formula *)

Lemma RN_small_Z z : 0 < z < 2 ^ 53 -> (RN (inject_Z z) == inject_Z z)%Q.
Proof.
  intros Hz.
  pose proof (Zdigits2_spec z ltac:(lia)) as [Dlo Dhi].
  assert (HD : 0 < Zdigits2 z <= 53).
  { destruct (Zdigits2_bounds z 0 53 ltac:(lia)); simpl; lia. }
  set (D := Zdigits2 z) in *.
  assert (Hmag : is_mag (inject_Z z) D).
  { unfold is_mag. rewrite (pow2_Z (D - 1)) by lia. rewrite (pow2_Z D) by lia.
    rewrite <- Zle_Qle, <- Zlt_Qlt. lia. }
  rewrite (RN_eq _ _ Hmag). unfold rnd53.
  assert (Ev : (inject_Z z / pow2 (D - 53) == inject_Z (z * 2 ^ (53 - D)))%Q).
  { rewrite inject_Z_mult, <- pow2_Z by lia.
    replace (53 - D) with (- (D - 53)) by lia. unfold pow2. rewrite Qpower_opp.
    reflexivity. }
  rewrite Ev, Qrne_inject_Z, inject_Z_mult, <- pow2_Z, <- Qmult_assoc, <- pow2_add by lia.
  replace (53 - D + (D - 53)) with 0 by lia. change (pow2 0) with 1%Q. ring.
Qed.

Lemma rint_abs_Q M E : F64.rint_abs M E = Qrne (inject_Z (Zpos M) * pow2 E).
Proof.
  destruct E as [|p|p]; unfold F64.rint_abs.
  - rewrite <- (Qrne_inject_Z (Z.pos M * 2 ^ 0)). apply Qrne_comp.
    rewrite inject_Z_mult. reflexivity.
  - rewrite <- (Qrne_inject_Z (Z.pos M * 2 ^ Z.pos p)). apply Qrne_comp.
    rewrite inject_Z_mult, <- pow2_Z by lia. reflexivity.
  - rewrite <- Qrne_div by (apply Z.pow_pos_nonneg; lia). apply Qrne_comp.
    rewrite <- pow2_Z by lia. change (Z.neg p) with (- Z.pos p).
    unfold pow2. rewrite Qpower_opp. reflexivity.
Qed.

Lemma Zdigits2_lt_pow2 z b : 0 < z < 2 ^ b -> 0 <= b -> 0 < Zdigits2 z <= b.
Proof.
  intros Hz Hb. destruct (Zdigits2_bounds z 0 b ltac:(lia)); simpl; lia.
Qed.

Lemma rank_float k n :
  0 < k < 2 ^ 64 -> 0 < n < 2 ^ 64 ->
  exists M E,
    F64.mul (F64.div (F64.of_Z k) (F64.of_Z n)) (F64.of_Z 100) = S754_finite false M E
    /\ F64.rint_abs M E = rank_Q k n.
Proof.
  intros Hk Hn.
  pose proof (Zdigits2_lt_pow2 k 64 Hk ltac:(lia)) as Dk.
  pose proof (Zdigits2_lt_pow2 n 64 Hn ltac:(lia)) as Dn.
  destruct (of_Z_spec k ltac:(lia) ltac:(lia)) as [(mx & ex & Ex & Hmx & Hex) Vx].
  destruct (of_Z_spec n ltac:(lia) ltac:(lia)) as [(my & ey & Ey & Hmy & Hey) Vy].
  destruct (of_Z_spec 100 ltac:(lia) ltac:(simpl; lia)) as [(mc & ec & Ec & Hmc & Hec) Vc].
  simpl (Zdigits2 100) in Hec.
  rewrite Ex, Ey, Ec in *.
  destruct (div_spec mx ex my ey Hmx Hmy ltac:(lia)) as [(mq & eq & Eq & Hmq & Heq) Vq].
  rewrite Eq in *.
  destruct (mul_spec mq eq mc ec Hmq Hmc ltac:(lia)) as [(mp & ep & Ep & Hmp & Hep) Vp].
  exists mp, ep. split; [exact Ep|].
  rewrite rint_abs_Q, <- B2Q_pos, <- Ep. unfold rank_Q. apply Qrne_comp.
  rewrite Vp, Vq, Vx, Vy, Vc. rewrite (RN_small_Z 100) by lia. reflexivity.
Qed.

Lemma inject_Z_pos z : 0 < z -> (0 < inject_Z z)%Q.
Proof. intros H. rewrite <- (Zlt_Qlt 0). assumption. Qed.

Lemma Qdiv_pos a b : (0 < a -> 0 < b -> 0 < a / b)%Q.
Proof. intros Ha Hb. apply Qlt_shift_div_l; lra. Qed.

Lemma Qdiv_le_mono a b c : (0 < c -> a <= b -> a / c <= b / c)%Q.
Proof.
  intros Hc Hab. apply Qmult_le_compat_r; [assumption|].
  apply Qlt_le_weak, Qinv_lt_0_compat, Hc.
Qed.

Lemma rank_Q_mono k1 k2 n :
  0 < k1 <= k2 -> 0 < n -> rank_Q k1 n <= rank_Q k2 n.
Proof.
  intros Hk Hn. unfold rank_Q.
  pose proof (RN_pos _ (inject_Z_pos k1 ltac:(lia))) as X1.
  pose proof (RN_pos _ (inject_Z_pos n Hn)) as Y.
  assert (X12 : (RN (inject_Z k1) <= RN (inject_Z k2))%Q).
  { apply RN_mono; [apply inject_Z_pos; lia|]. rewrite <- Zle_Qle. lia. }
  pose proof (Qdiv_pos _ _ X1 Y) as R1.
  pose proof (Qdiv_le_mono _ _ _ Y X12) as R12.
  pose proof (RN_pos _ R1) as Q1.
  pose proof (RN_mono _ _ R1 R12) as Q12.
  apply Qrne_mono, RN_mono; lra.
Qed.

Lemma rank_Q_nonneg k n : 0 < k -> 0 < n -> 0 <= rank_Q k n.
Proof.
  intros Hk Hn. unfold rank_Q.
  pose proof (RN_pos _ (inject_Z_pos k Hk)) as X.
  pose proof (RN_pos _ (inject_Z_pos n Hn)) as Y.
  pose proof (RN_pos _ (Qdiv_pos _ _ X Y)) as R.
  assert (P : (0 < RN (RN (inject_Z k) / RN (inject_Z n)) * 100)%Q) by lra.
  apply RN_pos in P.
  change 0 with (Qrne 0). apply Qrne_mono. lra.
Qed.

Lemma rank_Q_le_100 k n : 0 < k <= n -> rank_Q k n <= 100.
Proof.
  intros Hk. unfold rank_Q.
  pose proof (RN_pos _ (inject_Z_pos k ltac:(lia))) as X.
  pose proof (RN_pos _ (inject_Z_pos n ltac:(lia))) as Y.
  assert (XY : (RN (inject_Z k) <= RN (inject_Z n))%Q).
  { apply RN_mono; [apply inject_Z_pos; lia|]. rewrite <- Zle_Qle. lia. }
  pose proof (Qdiv_pos _ _ X Y) as R.
  assert (R1 : (RN (inject_Z k) / RN (inject_Z n) <= 1)%Q).
  { apply Qle_shift_div_r; lra. }
  pose proof (RN_mono _ _ R R1) as Q1.
  pose proof (RN_pos _ R) as Q0.
  change (RN 1) with (RN (inject_Z 1)) in Q1. rewrite (RN_small_Z 1) in Q1 by lia.
  change (inject_Z 1) with 1%Q in Q1.
  assert (P : (RN (RN (RN (inject_Z k) / RN (inject_Z n)) * 100) <= RN (inject_Z 100))%Q).
  { apply RN_mono; [lra|]. change (inject_Z 100) with 100%Q. lra. }
  rewrite (RN_small_Z 100) in P by lia.
  rewrite <- (Qrne_inject_Z 100). apply Qrne_mono, P.
Qed.

Lemma RN_rel v : (0 < v -> v * (1 - eps) <= RN v <= v * (1 + eps))%Q.
Proof.
  intros Hv. pose proof (RN_err v Hv) as H.
  change (pow2 (-53)) with eps in H.
  apply Qabs_Qle_condition in H. lra.
Qed.

Lemma rank_bound_Q K N P :
  (0 < K -> K <= N -> N <= 17592186044416 # 1 ->
   100 * (1 - eps) * (1 - eps) * K - (1 # 2) * N <= P ->
   P <= 100 * (1 + eps) * (1 + eps) * K + (1 # 2) * N ->
   - (N + 1) < 2 * (P - 100 * K) < N + 1)%Q.
Proof. unfold eps. intros. split; lra. Qed.

Lemma rank_Q_near k n :
  0 < k <= n -> n < 2 ^ 44 -> 2 * Z.abs (n * rank_Q k n - 100 * k) <= n.
Proof.
  intros Hk Hn. unfold rank_Q.
  set (K := inject_Z k). set (N := inject_Z n).
  assert (HK : (0 < K)%Q) by (apply inject_Z_pos; lia).
  assert (HN : (0 < N)%Q) by (apply inject_Z_pos; lia).
  assert (HKN : (K <= N)%Q) by (unfold K, N; rewrite <- Zle_Qle; lia).
  assert (HN44 : (N <= inject_Z (2 ^ 44))%Q) by (unfold N; rewrite <- Zle_Qle; lia).
  assert (EK : (RN K == K)%Q) by (apply RN_small_Z; lia).
  assert (EN : (RN N == N)%Q) by (apply RN_small_Z; lia).
  set (t := (K / N)%Q).
  assert (Ht : (t * N == K)%Q) by (unfold t; field; lra).
  assert (Ht0 : (0 < t)%Q) by (apply Qdiv_pos; assumption).
  assert (Er : Qrne (RN (RN (RN K / RN N) * 100)) = Qrne (RN (RN t * 100))).
  { apply Qrne_comp. rewrite EK, EN. reflexivity. }
  rewrite Er. clear Er.
  pose proof (RN_rel t Ht0) as [Q1 Q2].
  pose proof (RN_pos t Ht0) as Q0.
  set (q := RN t) in *.
  assert (Hy0 : (0 < q * 100)%Q) by lra.
  pose proof (RN_rel _ Hy0) as [Y1 Y2].
  set (y := RN (q * 100)) in *.
  pose proof (Qrne_near y) as R. apply Qabs_Qle_condition in R.
  set (r := Qrne y) in *.
  assert (U : (inject_Z r * N <= (100 * (1 + eps) * (1 + eps) * t + (1 # 2)) * N)%Q).
  { apply Qmult_le_compat_r; [unfold eps in *|]; lra. }
  assert (L : ((100 * (1 - eps) * (1 - eps) * t - (1 # 2)) * N <= inject_Z r * N)%Q).
  { apply Qmult_le_compat_r; [unfold eps in *|]; lra. }
  assert (EU : ((100 * (1 + eps) * (1 + eps) * t + (1 # 2)) * N ==
                100 * (1 + eps) * (1 + eps) * K + (1 # 2) * N)%Q)
    by (rewrite <- Ht; ring).
  assert (EL : ((100 * (1 - eps) * (1 - eps) * t - (1 # 2)) * N ==
                100 * (1 - eps) * (1 - eps) * K - (1 # 2) * N)%Q)
    by (rewrite <- Ht; ring).
  rewrite EU in U. rewrite EL in L.
  change (inject_Z (2 ^ 44)) with (17592186044416 # 1)%Q in HN44.
  destruct (rank_bound_Q K N _ HK HKN HN44 L U) as [B2 B1].
  assert (Z1 : 2 * (r * n - 100 * k) < n + 1).
  { rewrite Zlt_Qlt. rewrite !inject_Z_mult, inject_Z_plus.
    unfold Zminus. rewrite inject_Z_plus, inject_Z_opp, !inject_Z_mult.
    fold K N. change (inject_Z 2) with 2%Q. change (inject_Z 100) with 100%Q.
    change (inject_Z 1) with 1%Q. lra. }
  assert (Z2 : - (n + 1) < 2 * (r * n - 100 * k)).
  { rewrite Zlt_Qlt. rewrite inject_Z_opp, !inject_Z_mult, inject_Z_plus.
    unfold Zminus. rewrite inject_Z_plus, inject_Z_opp, !inject_Z_mult.
    fold K N. change (inject_Z 2) with 2%Q. change (inject_Z 100) with 100%Q.
    change (inject_Z 1) with 1%Q. lra. }
  lia.
Qed.

(** * Comparison and counting *)

Lemma Pos_compare_cont_Eq a b : Pos.compare_cont Eq a b = (Zpos a ?= Zpos b).
Proof. reflexivity. Qed.

(** [<] followed by [<=] is [<], on every pair of floats (NaN included,
    since it compares false with everything). *)
Lemma SFltb_SFleb_trans a b c :
  SFltb a b = true -> SFleb b c = true -> SFltb a c = true.
Proof.
  unfold SFltb, SFleb, SFcompare.
  destruct a as [sa|sa| |sa ma ea], b as [sb|sb| |sb mb eb], c as [sc|sc| |sc mc ec];
    try discriminate;
    try (destruct sa); try (destruct sb); try (destruct sc);
    try discriminate; try reflexivity;
    rewrite ?Pos_compare_cont_Eq;
    repeat match goal with
      | |- context [?x ?= ?y] => destruct (Z.compare_spec x y)
      end; cbn [CompOpp]; try discriminate; try reflexivity; intros; exfalso; lia.
Qed.

Lemma np_sum_count (f : float -> bool) arr :
  np_sum (map f arr) = len (List.filter f arr).
Proof.
  unfold len. induction arr as [|v arr IH]; [reflexivity|].
  cbn [map np_sum fold_right List.filter]. fold (np_sum (map f arr)). rewrite IH.
  destruct (f v); cbn [length]; lia.
Qed.

Lemma count_lt_bounds arr x : 0 <= count_lt arr x <= len arr.
Proof.
  unfold count_lt, len. split; [lia|].
  apply Nat2Z.inj_le, List.filter_length_le.
Qed.

Lemma count_lt_mono arr x1 x2 :
  F64.leb x1 x2 = true -> count_lt arr x1 <= count_lt arr x2.
Proof.
  intros Hle. unfold count_lt, len, F64.ltb, F64.leb in *. apply Nat2Z.inj_le.
  induction arr as [|v arr IH]; [reflexivity|]. cbn [List.filter].
  destruct (SFltb v x1) eqn:E1.
  - rewrite (SFltb_SFleb_trans v x1 x2 E1 Hle). cbn [length]. lia.
  - destruct (SFltb v x2); cbn [length]; lia.
Qed.

(** * [percentile_rank] in closed form *)

Lemma RN_0 : (RN 0 == 0)%Q.
Proof. vm_compute. reflexivity. Qed.

Lemma rank_Q_0 n : rank_Q 0 n = 0.
Proof.
  unfold rank_Q. change (inject_Z 0) with 0%Q.
  assert (E : (RN (RN (RN 0 / RN (inject_Z n)) * 100) == 0)%Q).
  { rewrite RN_0. unfold Qdiv. rewrite Qmult_0_l, RN_0, Qmult_0_l, RN_0. reflexivity. }
  rewrite (Qrne_comp _ _ E). reflexivity.
Qed.

Lemma rank_float_0 n :
  0 < n < 2 ^ 64 ->
  F64.round_int (F64.mul (F64.div (F64.of_Z 0) (F64.of_Z n)) (F64.of_Z 100)) = Ok 0.
Proof.
  intros Hn.
  pose proof (Zdigits2_lt_pow2 n 64 Hn ltac:(lia)) as Dn.
  destruct (of_Z_spec n ltac:(lia) ltac:(lia)) as [(my & ey & Ey & _) _].
  rewrite Ey. reflexivity.
Qed.

Lemma percentile_rank_eval arr x :
  arr <> [] -> len arr < 2 ^ 64 -> F64.isnan x = false ->
  percentile_rank (Some arr) x = Ok (Some (rank_Q (count_lt arr x) (len arr))).
Proof.
  intros Hne Hlen Hx. unfold percentile_rank. rewrite Hx, np_sum_count.
  fold (count_lt arr x).
  pose proof (count_lt_bounds arr x) as Hc.
  assert (Hn : 0 < len arr) by (unfold len; destruct arr; [congruence|cbn [length]; lia]).
  destruct (Z.eq_dec (count_lt arr x) 0) as [E0|E0].
  - rewrite E0, rank_float_0, rank_Q_0 by lia. reflexivity.
  - destruct (rank_float (count_lt arr x) (len arr) ltac:(lia) ltac:(lia))
      as (M & E & -> & Hr).
    cbn [F64.round_int cond_Zopp]. rewrite Hr. reflexivity.
Qed.


(** * Quartiles of a sample of positive normal floats *)

(** value bounds of a positive float with a full mantissa *)
(** ** Order and equality of positive normal floats *)

Lemma normal53_value M E :
  Zdigits2 (Zpos M) = 53 ->
  (pow2 (52 + E) <= B2Q (S754_finite false M E) < pow2 (53 + E))%Q.
Proof.
  intros HM. pose proof (Zdigits2_spec (Zpos M) ltac:(lia)) as [Lo Hi].
  rewrite HM in Lo, Hi. simpl (53 - 1) in Lo.
  rewrite B2Q_pos, !pow2_add, (pow2_Z 52), (pow2_Z 53) by lia.
  pose proof (pow2_pos E) as HE.
  rewrite Zle_Qle in Lo. rewrite Zlt_Qlt in Hi.
  split.
  - apply Qmult_le_compat_r; [exact Lo|lra].
  - apply Qmult_lt_compat_r; [lra|exact Hi].
Qed.

Lemma normal53_is_mag M E :
  Zdigits2 (Zpos M) = 53 -> is_mag (B2Q (S754_finite false M E)) (53 + E).
Proof.
  intros HM. pose proof (normal53_value M E HM) as H. unfold is_mag.
  replace (53 + E - 1) with (52 + E) by lia. exact H.
Qed.

Lemma RN_normal53 M E :
  Zdigits2 (Zpos M) = 53 ->
  (RN (B2Q (S754_finite false M E)) == B2Q (S754_finite false M E))%Q.
Proof.
  intros HM. rewrite (RN_eq _ _ (normal53_is_mag M E HM)). unfold rnd53.
  replace (53 + E - 53) with E by lia. cbn [B2Q cond_Zopp].
  pose proof (pow2_pos E) as HE.
  assert (Ev : (inject_Z (Z.pos M) * pow2 E / pow2 E == inject_Z (Z.pos M))%Q)
    by (field; lra).
  rewrite Ev, Qrne_inject_Z. reflexivity.
Qed.

Lemma normal53_exp_lt M1 E1 M2 E2 :
  Zdigits2 (Zpos M1) = 53 -> Zdigits2 (Zpos M2) = 53 -> E1 < E2 ->
  (B2Q (S754_finite false M1 E1) < B2Q (S754_finite false M2 E2))%Q.
Proof.
  intros H1 H2 HE.
  pose proof (normal53_value M1 E1 H1) as [_ U].
  pose proof (normal53_value M2 E2 H2) as [L _].
  assert (pow2 (53 + E1) <= pow2 (52 + E2))%Q by (apply pow2_le; lia).
  lra.
Qed.

Lemma B2Q_same_exp M1 M2 E :
  (B2Q (S754_finite false M1 E) <= B2Q (S754_finite false M2 E))%Q
  <-> Zpos M1 <= Zpos M2.
Proof.
  rewrite !B2Q_pos. pose proof (pow2_pos E) as HE. rewrite Zle_Qle. split.
  - intros H. apply Qmult_le_r in H; assumption.
  - intros H. apply Qmult_le_compat_r; lra.
Qed.

Lemma SFleb_normal53 M1 E1 M2 E2 :
  Zdigits2 (Zpos M1) = 53 -> Zdigits2 (Zpos M2) = 53 ->
  (SFleb (S754_finite false M1 E1) (S754_finite false M2 E2) = true
   <-> (B2Q (S754_finite false M1 E1) <= B2Q (S754_finite false M2 E2))%Q).
Proof.
  intros H1 H2. unfold SFleb, SFcompare. rewrite Pos_compare_cont_Eq.
  destruct (Z.compare_spec E1 E2) as [->|Hlt|Hgt].
  - rewrite B2Q_same_exp.
    destruct (Z.compare_spec (Zpos M1) (Zpos M2)); split; intros; try reflexivity;
      try discriminate; lia.
  - pose proof (normal53_exp_lt _ _ _ _ H1 H2 Hlt). split; [lra|reflexivity].
  - pose proof (normal53_exp_lt _ _ _ _ H2 H1 Hgt). split; [discriminate|lra].
Qed.

Lemma normal53_eq M1 E1 M2 E2 :
  Zdigits2 (Zpos M1) = 53 -> Zdigits2 (Zpos M2) = 53 ->
  (B2Q (S754_finite false M1 E1) == B2Q (S754_finite false M2 E2))%Q ->
  S754_finite false M1 E1 = S754_finite false M2 E2.
Proof.
  intros H1 H2 Heq.
  destruct (Z.lt_trichotomy E1 E2) as [Hlt|[->|Hgt]].
  - pose proof (normal53_exp_lt _ _ _ _ H1 H2 Hlt). lra.
  - assert (Zpos M1 = Zpos M2).
    { apply Z.le_antisymm; apply (B2Q_same_exp _ _ E2); lra. }
    congruence.
  - pose proof (normal53_exp_lt _ _ _ _ H2 H1 Hgt). lra.
Qed.

(** ** Addition and subtraction with a positive result *)

Lemma is_mag_bounds v d c c' :
  is_mag v d -> (pow2 c <= v)%Q -> (v < pow2 c')%Q -> c < d <= c'.
Proof.
  intros [Lo Hi] Hc Hc'. split.
  - apply pow2_lt_inv. lra.
  - assert (d - 1 < c'); [|lia]. apply pow2_lt_inv. lra.
Qed.

Lemma Zdigits2_is_mag m e :
  0 < m -> is_mag (inject_Z m * pow2 e) (Zdigits2 m + e).
Proof.
  intros Hm. pose proof (Zdigits2_spec m Hm) as [Lo Hi].
  assert (0 < Zdigits2 m) by (destruct m; simpl; lia).
  unfold is_mag. replace (Zdigits2 m + e - 1) with (Zdigits2 m - 1 + e) by lia.
  rewrite !pow2_add, (pow2_Z (Zdigits2 m - 1)), (pow2_Z (Zdigits2 m)) by lia.
  pose proof (pow2_pos e) as He.
  rewrite Zle_Qle in Lo. rewrite Zlt_Qlt in Hi. split.
  - apply Qmult_le_compat_r; [exact Lo|lra].
  - apply Qmult_lt_compat_r; [lra|exact Hi].
Qed.

(** [binary_normalize] of a positive integer mantissa *)
Lemma binary_normalize_pos m ez :
  0 < m ->
  (pow2 (-1022) <= inject_Z m * pow2 ez)%Q ->
  (inject_Z m * pow2 ez < pow2 1023)%Q ->
  pnormal (binary_normalize 53 1024 m ez false)
  /\ (B2Q (binary_normalize 53 1024 m ez false) == RN (inject_Z m * pow2 ez))%Q.
Proof.
  intros Hm Hlo Hhi.
  pose proof (is_mag_bounds _ _ _ _ (Zdigits2_is_mag m ez Hm) Hlo Hhi) as Hdg.
  destruct m as [|p|p]; try lia.
  unfold binary_normalize, binary_round.
  pose proof (shl_align_spec p ez (fexp 53 1024 (Z.pos (digits2_pos p) + ez))) as [He Hmz].
  destruct (shl_align p ez (fexp 53 1024 (Z.pos (digits2_pos p) + ez))) as [mz ez'].
  cbn [fst snd] in He, Hmz. change (Z.pos (digits2_pos p)) with (Zdigits2 (Z.pos p)) in *.
  set (D := Zdigits2 (Z.pos p)) in *.
  assert (HD : 0 < D) by (unfold D; simpl; lia).
  assert (Hez : ez' = Z.min ez (D + ez - 53)) by (rewrite He; unfold fexp, emin; lia).
  rewrite <- He in Hmz.
  assert (Hdg' : Zdigits2 (Z.pos mz) + ez' = D + ez).
  { rewrite Hmz, Zdigits2_shift by lia. fold D. lia. }
  pose proof (bra_exact_Q (Z.pos mz) ez' ltac:(lia)) as H. cbv zeta in H.
  rewrite Hdg' in H. destruct H as [Hn Hv]; try lia.
  split.
  - destruct Hn as (M & E & -> & HM & _). exists M, E. auto.
  - rewrite Hv. apply RN_proper.
    rewrite Hmz, inject_Z_mult, <- pow2_Z, <- Qmult_assoc, <- pow2_add by lia.
    replace (ez - ez' + ez') with ez by lia. reflexivity.
Qed.

Lemma shl_align_value mx ex ez :
  ez <= ex ->
  (inject_Z (Zpos (fst (shl_align mx ex ez))) * pow2 ez
   == B2Q (S754_finite false mx ex))%Q.
Proof.
  intros Hle. destruct (shl_align_spec mx ex ez) as [_ Hm].
  replace (Z.min ex ez) with ez in Hm by lia.
  rewrite Hm, inject_Z_mult, <- pow2_Z, <- Qmult_assoc, <- pow2_add by lia.
  replace (ex - ez + ez) with ex by lia. reflexivity.
Qed.

Lemma add_pos mx ex my ey :
  let x := S754_finite false mx ex in
  let y := S754_finite false my ey in
  (pow2 (-1022) <= B2Q x + B2Q y)%Q ->
  (B2Q x + B2Q y < pow2 1023)%Q ->
  pnormal (F64.add x y) /\ (B2Q (F64.add x y) == RN (B2Q x + B2Q y))%Q.
Proof.
  intros x y Hlo Hhi. unfold F64.add, F64.prec, F64.emax, x, y. cbn [SFadd cond_Zopp].
  set (ez := Z.min ex ey).
  pose proof (shl_align_value mx ex ez ltac:(lia)) as Vx.
  pose proof (shl_align_value my ey ez ltac:(lia)) as Vy.
  set (ax := Z.pos (fst (shl_align mx ex ez))) in *.
  set (ay := Z.pos (fst (shl_align my ey ez))) in *.
  assert (Ev : (inject_Z (ax + ay) * pow2 ez == B2Q x + B2Q y)%Q).
  { rewrite inject_Z_plus. unfold x, y. rewrite <- Vx, <- Vy. ring. }
  destruct (binary_normalize_pos (ax + ay) ez) as [Hn Hv]; try (unfold ax, ay; lia).
  - rewrite Ev. exact Hlo.
  - rewrite Ev. exact Hhi.
  - split; [exact Hn|]. rewrite Hv. apply RN_proper, Ev.
Qed.

Lemma sub_pos mx ex my ey :
  let x := S754_finite false mx ex in
  let y := S754_finite false my ey in
  (pow2 (-1022) <= B2Q x - B2Q y)%Q ->
  (B2Q x - B2Q y < pow2 1023)%Q ->
  pnormal (F64.sub x y) /\ (B2Q (F64.sub x y) == RN (B2Q x - B2Q y))%Q.
Proof.
  intros x y Hlo Hhi. unfold F64.sub, F64.prec, F64.emax, x, y. cbn [SFsub cond_Zopp].
  set (ez := Z.min ex ey).
  pose proof (shl_align_value mx ex ez ltac:(lia)) as Vx.
  pose proof (shl_align_value my ey ez ltac:(lia)) as Vy.
  set (ax := Z.pos (fst (shl_align mx ex ez))) in *.
  set (ay := Z.pos (fst (shl_align my ey ez))) in *.
  assert (Ev : (inject_Z (ax - ay) * pow2 ez == B2Q x - B2Q y)%Q).
  { unfold Z.sub. rewrite inject_Z_plus, inject_Z_opp. unfold x, y.
    rewrite <- Vx, <- Vy. ring. }
  assert (Hm : 0 < ax - ay).
  { pose proof (pow2_pos ez) as Hp. pose proof (pow2_pos (-1022)) as Hq.
    assert (H0 : (0 < inject_Z (ax - ay) * pow2 ez)%Q) by (rewrite Ev; lra).
    destruct (Z_lt_le_dec 0 (ax - ay)) as [|Hle]; [assumption|exfalso].
    rewrite Zle_Qle in Hle. change (inject_Z 0) with 0%Q in Hle.
    assert (inject_Z (ax - ay) * pow2 ez <= 0 * pow2 ez)%Q
      by (apply Qmult_le_compat_r; lra).
    lra. }
  destruct (binary_normalize_pos (ax - ay) ez Hm) as [Hn Hv].
  - rewrite Ev. exact Hlo.
  - rewrite Ev. exact Hhi.
  - split; [exact Hn|]. rewrite Hv. apply RN_proper, Ev.
Qed.

Lemma sub_same_value mx ex my ey :
  let x := S754_finite false mx ex in
  let y := S754_finite false my ey in
  (B2Q x == B2Q y)%Q -> F64.sub x y = S754_zero false.
Proof.
  intros x y Heq. unfold F64.sub, F64.prec, F64.emax, x, y. cbn [SFsub cond_Zopp].
  set (ez := Z.min ex ey).
  pose proof (shl_align_value mx ex ez ltac:(lia)) as Vx.
  pose proof (shl_align_value my ey ez ltac:(lia)) as Vy.
  set (ax := Z.pos (fst (shl_align mx ex ez))) in *.
  set (ay := Z.pos (fst (shl_align my ey ez))) in *.
  assert (E : ax = ay).
  { pose proof (pow2_pos ez) as Hp. unfold x, y in Heq. rewrite <- Vx, <- Vy in Heq.
    apply Qmult_inj_r in Heq; [|lra]. exact (proj1 (inject_Z_injective _ _) Heq). }
  rewrite E, Z.sub_diag. reflexivity.
Qed.

(** ** Interpolation on rationals *)

Lemma RN_rel0 v : (0 <= v -> v * (1 - eps) <= RN v <= v * (1 + eps))%Q.
Proof.
  intros Hv. destruct (Qlt_le_dec 0 v) as [Hpos|Hle].
  - apply RN_rel, Hpos.
  - assert (E : (v == 0)%Q) by lra. rewrite E, RN_0. unfold eps. lra.
Qed.

Section Interpolation.

(** Two representable end points, [0 < A <= B]. *)
Variables A B : Q.
Hypothesis HA : (0 < A)%Q.
Hypothesis HAB : (A <= B)%Q.
Hypothesis EA : (RN A == A)%Q.
Hypothesis EB : (RN B == B)%Q.

(** The four interpolated values climb from [A] to [B]. *)
Lemma lerp_Q_chain :
  (A <= lerp_Q A B 1 /\ lerp_Q A B 1 <= lerp_Q A B 2
   /\ lerp_Q A B 2 <= lerp_Q A B 3 /\ lerp_Q A B 3 <= B)%Q.
Proof.
  unfold lerp_Q.
  pose proof (RN_rel0 (B - A) ltac:(lra)) as [D1 D2].
  set (D := RN (B - A)) in *. unfold eps in D1, D2.
  assert (HD : (0 <= D)%Q) by lra.
  repeat split.
  - rewrite <- EA at 1. apply RN_mono; lra.
  - apply RN_mono; lra.
  - apply RN_mono; lra.
  - rewrite <- EB at 2. apply RN_mono; lra.
Qed.

Lemma lerp_Q_bounds (k : Z) :
  0 <= k <= 3 -> (A <= lerp_Q A B k <= B)%Q.
Proof.
  intros Hk. destruct lerp_Q_chain as (C1 & C2 & C3 & C4).
  assert (H1 : k = 0 \/ k = 1 \/ k = 2 \/ k = 3) by lia.
  destruct H1 as [-> | [-> | [-> | ->]]]; try (change (lerp_Q A B 0) with A); lra.
Qed.


End Interpolation.

(** ** Interpolation on floats *)

Lemma lerp_lo a b t :
  F64.leb f_half t = false ->
  lerp a b t = F64.add a (F64.mul (F64.sub b a) t).
Proof. intros H. unfold lerp. rewrite H. reflexivity. Qed.

Lemma lerp_hi a b t :
  F64.leb f_half t = true ->
  lerp a b t = F64.sub b (F64.mul (F64.sub b a) (F64.sub (F64.of_Z 1) t)).
Proof. intros H. unfold lerp. rewrite H. reflexivity. Qed.

Lemma B2Q_scale M E c :
  (B2Q (S754_finite false M E) * pow2 c == B2Q (S754_finite false M (E + c)))%Q.
Proof. cbn [B2Q cond_Zopp]. rewrite pow2_add. ring. Qed.

Lemma RN_scale M E c :
  Zdigits2 (Zpos M) = 53 ->
  (RN (B2Q (S754_finite false M E) * pow2 c)
   == B2Q (S754_finite false M E) * pow2 c)%Q.
Proof.
  intros HM. rewrite B2Q_scale. apply RN_normal53, HM.
Qed.

(** multiplication of a positive float by 1/4 or 1/2 is exact *)
Lemma mul_pow2 md ed mg eg c :
  Zdigits2 (Zpos md) = 53 -> Zdigits2 (Zpos mg) = 53 ->
  -1126 <= ed + eg <= 917 ->
  (B2Q (S754_finite false mg eg) == pow2 c)%Q ->
  pnormal (F64.mul (S754_finite false md ed) (S754_finite false mg eg))
  /\ (B2Q (F64.mul (S754_finite false md ed) (S754_finite false mg eg))
      == B2Q (S754_finite false md ed) * pow2 c)%Q.
Proof.
  intros Hd Hg He Hc.
  destruct (mul_spec md ed mg eg Hd Hg He) as [(M & E & HE & HM & _) Hv].
  split; [exists M, E; auto|].
  rewrite Hv, Hc. apply RN_scale, Hd.
Qed.

Lemma moderate_value x :
  moderate x -> (pow2 (-948) <= B2Q x < pow2 1013)%Q /\ (RN (B2Q x) == B2Q x)%Q.
Proof.
  intros (M & E & -> & HM & HE).
  pose proof (normal53_value M E HM) as [Lo Hi].
  assert (pow2 (-948) <= pow2 (52 + E))%Q by (apply pow2_le; lia).
  assert (pow2 (53 + E) <= pow2 1013)%Q by (apply pow2_le; lia).
  split; [lra|]. apply RN_normal53, HM.
Qed.

(** two distinct moderate floats differ by at least 2 ^ -1000 *)
Lemma moderate_gap a b :
  moderate a -> moderate b -> (B2Q a < B2Q b)%Q ->
  (pow2 (-1000) <= B2Q b - B2Q a)%Q.
Proof.
  intros (ma & ea & -> & Ha & Hea) (mb & eb & -> & Hb & Heb) Hlt.
  set (ez := Z.min eb ea).
  pose proof (shl_align_value mb eb ez ltac:(lia)) as Vb.
  pose proof (shl_align_value ma ea ez ltac:(lia)) as Va.
  set (xb := Z.pos (fst (shl_align mb eb ez))) in *.
  set (xa := Z.pos (fst (shl_align ma ea ez))) in *.
  pose proof (pow2_pos ez) as Hp.
  assert (Hm : xa < xb).
  { rewrite <- Va, <- Vb in Hlt. apply Qmult_lt_r in Hlt; [|assumption].
    rewrite <- Zlt_Qlt in Hlt. exact Hlt. }
  assert (E : (B2Q (S754_finite false mb eb) - B2Q (S754_finite false ma ea)
               == inject_Z (xb - xa) * pow2 ez)%Q).
  { unfold Z.sub. rewrite inject_Z_plus, inject_Z_opp, <- Va, <- Vb. ring. }
  rewrite E.
  assert (H1 : (1 <= inject_Z (xb - xa))%Q).
  { change 1%Q with (inject_Z 1). rewrite <- Zle_Qle. lia. }
  assert (pow2 (-1000) <= pow2 ez)%Q by (apply pow2_le; lia).
  assert (1 * pow2 ez <= inject_Z (xb - xa) * pow2 ez)%Q
    by (apply Qmult_le_compat_r; lra).
  lra.
Qed.

Lemma pow2_m2 : (pow2 (-2) == 1 # 4)%Q.
Proof. reflexivity. Qed.

Lemma pow2_m1 : (pow2 (-1) == 1 # 2)%Q.
Proof. reflexivity. Qed.

Lemma pow2_double e : (pow2 (e + 1) == 2 * pow2 e)%Q.
Proof. rewrite pow2_add. change (pow2 1) with 2%Q. ring. Qed.

Lemma lerp_value a b k :
  moderate a -> moderate b -> (B2Q a <= B2Q b)%Q -> 0 <= k <= 3 ->
  pnormal (lerp a b (gamma_of k))
  /\ (B2Q (lerp a b (gamma_of k)) == lerp_Q (B2Q a) (B2Q b) k)%Q.
Proof.
  intros Ha Hb HAB Hk.
  destruct (moderate_value a Ha) as [[La Ua] Ra].
  destruct (moderate_value b Hb) as [[Lb Ub] Rb].
  assert (C1 : (2 * pow2 (-1022) <= pow2 (-948))%Q).
  { rewrite <- pow2_double. apply pow2_le. lia. }
  assert (C2 : (pow2 1013 <= pow2 1023)%Q) by (apply pow2_le; lia).
  assert (C3 : (pow2 (-1022) <= pow2 (-1000))%Q) by (apply pow2_le; lia).
  assert (C4 : (pow2 1014 == 2 * pow2 1013)%Q) by (apply (pow2_double 1013)).
  assert (C5 : (pow2 (-1000) == 2 * pow2 (-1001))%Q) by (apply (pow2_double (-1001))).
  pose proof (pow2_pos (-1022)) as C6.
  pose proof (pow2_pos (-1001)) as C7.
  assert (Hk4 : k = 0 \/ k = 1 \/ k = 2 \/ k = 3) by lia.
  destruct (Qlt_le_dec (B2Q a) (B2Q b)) as [Hlt|Hge].
  - pose proof (moderate_gap a b Ha Hb Hlt) as Hgap.
    destruct Ha as (ma & ea & -> & Hma & Hea). destruct Hb as (mb & eb & -> & Hmb & Heb).
    set (A := B2Q (S754_finite false ma ea)) in *.
    set (B := B2Q (S754_finite false mb eb)) in *.
    destruct (sub_pos mb eb ma ea) as [(md & ed & Hdiff & Hmd) Vd];
      [fold A B; lra|fold A B; lra|].
    fold A B in Vd. rewrite Hdiff in Vd.
    pose proof (RN_rel (B - A) ltac:(lra)) as [D1 D2].
    pose proof (normal53_value md ed Hmd) as [Ld Ud].
    rewrite Vd in Ld, Ud. unfold lerp_Q.
    set (D := RN (B - A)) in *. unfold eps in D1, D2.
    assert (Hed : -1072 <= ed <= 970).
    { split.
      - assert (pow2 (-1001) < pow2 (53 + ed))%Q by lra.
        apply pow2_lt_inv in H. lia.
      - assert (pow2 (52 + ed) < pow2 1014)%Q by lra.
        apply pow2_lt_inv in H. lia. }
    destruct Hk4 as [-> | [-> | [-> | ->]]].
    + rewrite lerp_lo by reflexivity. rewrite Hdiff. cbn [F64.mul F64.add F64.sub SFmul SFadd SFsub gamma_of xorb].
      split; [exists ma, ea; auto|reflexivity].
    + rewrite lerp_lo by reflexivity. rewrite Hdiff.
      destruct (mul_pow2 md ed 4503599627370496 (-54) (-2) Hmd eq_refl ltac:(lia)
                  ltac:(reflexivity)) as [(mx & ex & HX & Hmx) Vx].
      cbn [gamma_of]. rewrite HX in *. rewrite Vd, pow2_m2 in Vx.
      destruct (add_pos ma ea mx ex) as [Hn Hv]; [fold A; lra|fold A; lra|].
      split; [exact Hn|]. rewrite Hv. apply RN_proper. fold A. rewrite Vx. reflexivity.
    + rewrite lerp_hi by reflexivity. rewrite Hdiff.
      change (F64.sub (F64.of_Z 1) (gamma_of 2)) with (gamma_of 2).
      destruct (mul_pow2 md ed 4503599627370496 (-53) (-1) Hmd eq_refl ltac:(lia)
                  ltac:(reflexivity)) as [(mx & ex & HX & Hmx) Vx].
      cbn [gamma_of]. rewrite HX in *. rewrite Vd, pow2_m1 in Vx.
      destruct (sub_pos mb eb mx ex) as [Hn Hv]; [fold B; lra|fold B; lra|].
      split; [exact Hn|]. rewrite Hv. apply RN_proper. fold B. rewrite Vx. reflexivity.
    + rewrite lerp_hi by reflexivity. rewrite Hdiff.
      change (F64.sub (F64.of_Z 1) (gamma_of 3)) with (gamma_of 1).
      destruct (mul_pow2 md ed 4503599627370496 (-54) (-2) Hmd eq_refl ltac:(lia)
                  ltac:(reflexivity)) as [(mx & ex & HX & Hmx) Vx].
      cbn [gamma_of]. rewrite HX in *. rewrite Vd, pow2_m2 in Vx.
      destruct (sub_pos mb eb mx ex) as [Hn Hv]; [fold B; lra|fold B; lra|].
      split; [exact Hn|]. rewrite Hv. apply RN_proper. fold B. rewrite Vx. reflexivity.
  - assert (Heq : (B2Q b == B2Q a)%Q) by lra.
    destruct Ha as (ma & ea & -> & Hma & Hea). destruct Hb as (mb & eb & -> & Hmb & Heb).
    pose proof (sub_same_value mb eb ma ea Heq) as Hdiff. cbv zeta in Hdiff.
    set (A := B2Q (S754_finite false ma ea)) in *.
    set (B := B2Q (S754_finite false mb eb)) in *.
    assert (ED : (RN (B - A) == 0)%Q).
    { rewrite <- RN_0. apply RN_proper. lra. }
    unfold lerp_Q.
    destruct Hk4 as [-> | [-> | [-> | ->]]].
    + rewrite lerp_lo by reflexivity. rewrite Hdiff. cbn [F64.mul F64.add F64.sub SFmul SFadd SFsub gamma_of xorb].
      split; [exists ma, ea; auto|reflexivity].
    + rewrite lerp_lo by reflexivity. rewrite Hdiff. cbn [F64.mul F64.add F64.sub SFmul SFadd SFsub gamma_of xorb].
      split; [exists ma, ea; auto|]. fold A. rewrite ED.
      rewrite <- Ra at 1. apply RN_proper. ring.
    + rewrite lerp_hi by reflexivity. rewrite Hdiff.
      change (F64.sub (F64.of_Z 1) (gamma_of 2)) with (gamma_of 2). cbn [F64.mul F64.add F64.sub SFmul SFadd SFsub gamma_of xorb].
      split; [exists mb, eb; auto|]. fold B. rewrite ED.
      rewrite <- Rb at 1. apply RN_proper. ring.
    + rewrite lerp_hi by reflexivity. rewrite Hdiff.
      change (F64.sub (F64.of_Z 1) (gamma_of 3)) with (gamma_of 1). cbn [F64.mul F64.add F64.sub SFmul SFadd SFsub gamma_of xorb].
      split; [exists mb, eb; auto|]. fold B. rewrite ED.
      rewrite <- Rb at 1. apply RN_proper. ring.
Qed.

(** ** The virtual index *)

Lemma RN_dyadic k e :
  0 < k < 2 ^ 53 -> (RN (inject_Z k * pow2 e) == inject_Z k * pow2 e)%Q.
Proof.
  intros Hk.
  pose proof (Zdigits2_lt_pow2 k 53 Hk ltac:(lia)) as HD.
  pose proof (Zdigits2_is_mag k e ltac:(lia)) as Hmag.
  set (D := Zdigits2 k) in *.
  rewrite (RN_eq _ _ Hmag). unfold rnd53.
  pose proof (pow2_pos e) as He. pose proof (pow2_pos (D + e - 53)) as Hp.
  assert (Ev : (inject_Z k * pow2 e / pow2 (D + e - 53) == inject_Z (k * 2 ^ (53 - D)))%Q).
  { rewrite inject_Z_mult, <- pow2_Z by lia.
    replace e with (53 - D + (D + e - 53)) at 1 by lia. rewrite pow2_add.
    field. lra. }
  rewrite Ev, Qrne_inject_Z, inject_Z_mult, <- pow2_Z, <- Qmult_assoc, <- pow2_add by lia.
  replace (53 - D + (D + e - 53)) with e by lia. reflexivity.
Qed.

Lemma floor_Z_Q M E :
  F64.floor_Z (S754_finite false M E) = Qfloor (B2Q (S754_finite false M E)).
Proof.
  cbn [F64.floor_Z B2Q cond_Zopp]. destruct E as [|p|p].
  - rewrite Z.pow_0_r, Z.mul_1_r. change (pow2 0) with 1%Q.
    rewrite Qmult_1_r, Qfloor_Z. reflexivity.
  - rewrite <- (Qfloor_Z (Z.pos M * 2 ^ Z.pos p)). apply Qfloor_comp.
    rewrite inject_Z_mult, <- pow2_Z by lia. reflexivity.
  - assert (Hp : 0 < 2 ^ Z.pos p) by (apply Z.pow_pos_nonneg; lia).
    destruct (2 ^ Z.pos p) as [|d|d] eqn:Ed; try lia.
    change (Z.pos M / Z.pos d) with (Qfloor (Z.pos M # d)). apply Qfloor_comp.
    rewrite Qmake_Qdiv, <- Ed, <- pow2_Z by lia.
    change (Z.neg p) with (- Z.pos p). unfold pow2. rewrite Qpower_opp. reflexivity.
Qed.

Lemma gamma_value k : 0 <= k <= 3 -> (B2Q (gamma_of k) == inject_Z k * pow2 (-2))%Q.
Proof.
  intros Hk. assert (H : k = 0 \/ k = 1 \/ k = 2 \/ k = 3) by lia.
  destruct H as [-> | [-> | [-> | ->]]]; vm_compute; reflexivity.
Qed.

Lemma gamma_pnormal k : 1 <= k <= 3 -> pnormal (gamma_of k).
Proof.
  intros Hk. assert (H : k = 1 \/ k = 2 \/ k = 3) by lia.
  destruct H as [-> | [-> | ->]]; eexists _, _; split; reflexivity.
Qed.

Lemma pnormal_eq x y : pnormal x -> pnormal y -> (B2Q x == B2Q y)%Q -> x = y.
Proof.
  intros (M1 & E1 & -> & H1) (M2 & E2 & -> & H2). apply normal53_eq; assumption.
Qed.

Lemma quarter_gamma x r :
  pnormal x -> 1 <= r <= 3 -> (B2Q x == inject_Z r * pow2 (-2))%Q -> x = gamma_of r.
Proof.
  intros Hx Hr Hv. apply pnormal_eq; [assumption|apply gamma_pnormal; lia|].
  rewrite Hv, gamma_value by lia. reflexivity.
Qed.

Lemma of_Z_small k :
  0 < k < 2 ^ 53 ->
  exists M E, F64.of_Z k = S754_finite false M E /\ Zdigits2 (Zpos M) = 53
              /\ -52 <= E <= 1 /\ (B2Q (F64.of_Z k) == inject_Z k)%Q.
Proof.
  intros Hk. pose proof (Zdigits2_lt_pow2 k 53 Hk ltac:(lia)) as HD.
  destruct (of_Z_spec k ltac:(lia) ltac:(lia)) as [(M & E & HE & HM & Hr) Hv].
  exists M, E. repeat split; try assumption; try lia.
  rewrite Hv. apply RN_small_Z, Hk.
Qed.

(** the virtual index [(n - 1) * (q / 4)], its floor and its fraction *)
Lemma virtual_index_spec n q :
  1 <= n < 2 ^ 50 -> 1 <= q <= 3 ->
  let vi := F64.mul (F64.of_Z (n - 1)) (gamma_of q) in
  F64.floor_Z vi = (n - 1) * q / 4
  /\ F64.sub vi (F64.of_Z (F64.floor_Z vi)) = gamma_of (((n - 1) * q) mod 4).
Proof.
  intros Hn Hq vi.
  destruct (gamma_pnormal q Hq) as (mg & eg & Hg & Hmg).
  assert (Heg : -54 <= eg <= -53).
  { assert (H : q = 1 \/ q = 2 \/ q = 3) by lia.
    destruct H as [-> | [-> | ->]]; inversion Hg; lia. }
  destruct (Z.eq_dec n 1) as [->|Hn1].
  - subst vi. rewrite Hg. split; reflexivity.
  - destruct (of_Z_small (n - 1) ltac:(lia)) as (mm & em & Hm & Hmm & Hem & Vm).
    set (k := (n - 1) * q).
    assert (Hk : 0 < k < 2 ^ 53) by (unfold k; nia).
    pose proof (Z.div_mod k 4 ltac:(lia)) as Ek.
    pose proof (Z.mod_pos_bound k 4 ltac:(lia)) as Bk.
    destruct (mul_spec mm em mg eg Hmm Hmg ltac:(lia)) as [(mv & ev & Hvi & Hmv & _) Vv].
    rewrite <- Hm, <- Hg in Hvi, Vv. fold vi in Hvi, Vv.
    assert (Vvi : (B2Q vi == inject_Z k * pow2 (-2))%Q).
    { rewrite Vv, Vm, gamma_value by lia.
      rewrite Qmult_assoc, <- inject_Z_mult. fold k. apply RN_dyadic, Hk. }
    assert (Hfl : F64.floor_Z vi = k / 4).
    { rewrite Hvi, floor_Z_Q, <- Hvi.
      rewrite (Qfloor_comp _ _ Vvi). 
      change (k / 4) with (Qfloor (k # 4)). apply Qfloor_comp.
      rewrite Qmake_Qdiv. reflexivity. }
    split; [exact Hfl|]. rewrite Hfl.
    assert (Vfrac : (B2Q vi - inject_Z (k / 4) == inject_Z (k mod 4) * pow2 (-2))%Q).
    { rewrite Vvi. rewrite Ek at 1. rewrite inject_Z_plus, inject_Z_mult.
      change (pow2 (-2)) with (1 # 4)%Q. change (inject_Z 4) with 4%Q. ring. }
    destruct (Z.eq_dec (k / 4) 0) as [E0|E0].
    + rewrite E0. change (F64.of_Z 0) with (S754_zero false).
      rewrite Hvi. cbn [F64.sub SFsub]. rewrite <- Hvi.
      apply quarter_gamma; [rewrite Hvi; exists mv, ev; auto|lia|].
      rewrite Vvi. replace (k mod 4) with k by lia. reflexivity.
    + destruct (of_Z_small (k / 4) ltac:(lia)) as (mi & ei & Hi & Hmi & Hei & Vi).
      rewrite Hi in *. rewrite Hvi in *. rewrite <- Vi in Vfrac.
      destruct (Z.eq_dec (k mod 4) 0) as [R0|R0].
      * rewrite R0. apply sub_same_value. rewrite R0 in Vfrac.
        change (inject_Z 0) with 0%Q in Vfrac. lra.
      * assert (P1 : (pow2 (-1022) <= pow2 (-2))%Q) by (apply pow2_le; lia).
        assert (P2 : (4 * pow2 (-2) <= pow2 1023)%Q).
        { assert (E4 : (4 * pow2 (-2) == pow2 0)%Q) by reflexivity.
          rewrite E4. apply pow2_le. lia. }
        pose proof (pow2_pos (-2)) as P3.
        assert (R1 : (1 <= inject_Z (k mod 4))%Q).
        { change 1%Q with (inject_Z 1). rewrite <- Zle_Qle. lia. }
        assert (R2 : (inject_Z (k mod 4) <= 3)%Q).
        { change 3%Q with (inject_Z 3). rewrite <- Zle_Qle. lia. }
        assert (R3 : (1 * pow2 (-2) <= inject_Z (k mod 4) * pow2 (-2))%Q)
          by (apply Qmult_le_compat_r; lra).
        assert (R4 : (inject_Z (k mod 4) * pow2 (-2) <= 3 * pow2 (-2))%Q)
          by (apply Qmult_le_compat_r; lra).
        destruct (sub_pos mv ev mi ei) as [Hn' Hv']; [lra|lra|].
        apply quarter_gamma; [exact Hn'|lia|].
        rewrite Hv', Vfrac. apply RN_dyadic. lia.
Qed.

(** ** Sorting *)

Lemma insert_sorted_Forall (P : float -> Prop) x l :
  P x -> Forall P l -> Forall P (insert_sorted x l).
Proof.
  intros Hx Hl. induction Hl as [|y l Hy Hl IH]; cbn [insert_sorted].
  - constructor; [assumption|constructor].
  - destruct (F64.leb x y || F64.isnan y); repeat constructor; assumption.
Qed.

Lemma insert_sorted_length x l :
  length (insert_sorted x l) = S (length l).
Proof.
  induction l as [|y l IH]; cbn [insert_sorted]; [reflexivity|].
  destruct (F64.leb x y || F64.isnan y); cbn [length]; [reflexivity|].
  rewrite IH. reflexivity.
Qed.

Lemma moderate_leb x y :
  moderate x -> moderate y ->
  (F64.leb x y = true <-> (B2Q x <= B2Q y)%Q).
Proof.
  intros (mx & ex & -> & Hx & _) (my & ey & -> & Hy & _).
  apply SFleb_normal53; assumption.
Qed.

Lemma insert_sorted_sorted x l :
  moderate x -> Forall moderate l -> sorted_Q l -> sorted_Q (insert_sorted x l).
Proof.
  intros Hx Hl. induction Hl as [|y l Hy Hl IH]; intros Hs; cbn [insert_sorted].
  - cbn. split; [constructor|exact I].
  - destruct Hs as [Hyl Hs].
    assert (Hnan : F64.isnan y = false) by (destruct Hy as (? & ? & -> & _); reflexivity).
    rewrite Hnan, orb_false_r.
    destruct (F64.leb x y) eqn:Hle.
    + apply (moderate_leb x y Hx Hy) in Hle. cbn [sorted_Q]. split; [|split; assumption].
      constructor; [assumption|].
      eapply List.Forall_impl; [|exact Hyl]. cbn. intros z Hz. lra.
    + assert (Hlt : (B2Q y < B2Q x)%Q).
      { apply Qnot_le_lt. intros H. apply (moderate_leb x y Hx Hy) in H. congruence. }
      cbn [sorted_Q]. split; [|apply IH, Hs].
      apply insert_sorted_Forall; [lra|assumption].
Qed.

Lemma np_sort_Forall (P : float -> Prop) l : Forall P l -> Forall P (np_sort l).
Proof.
  induction 1 as [|x l Hx Hl IH]; cbn; [constructor|].
  apply insert_sorted_Forall; assumption.
Qed.

Lemma np_sort_length l : length (np_sort l) = length l.
Proof.
  induction l as [|x l IH]; cbn; [reflexivity|].
  rewrite insert_sorted_length. f_equal. exact IH.
Qed.

Lemma np_sort_sorted l : Forall moderate l -> sorted_Q (np_sort l).
Proof.
  induction 1 as [|x l Hx Hl IH]; cbn; [exact I|].
  apply insert_sorted_sorted; [assumption|apply np_sort_Forall; assumption|exact IH].
Qed.

Lemma sorted_Q_nth l : forall (i j : nat) d,
  sorted_Q l -> (i <= j < length l)%nat -> (B2Q (nth i l d) <= B2Q (nth j l d))%Q.
Proof.
  induction l as [|x l IH]; intros i j d Hs Hij; cbn [length] in Hij; [lia|].
  destruct Hs as [Hx Hs]. destruct i as [|i], j as [|j]; cbn [nth]; try lia.
  - apply Qle_refl.
  - apply (proj1 (List.Forall_nth _ _) Hx). lia.
  - apply IH; [assumption|lia].
Qed.

(** ** Quartiles *)

Lemma quantile_float q :
  1 <= q <= 3 -> F64.div (F64.of_Z (25 * q)) (F64.of_Z 100) = gamma_of q.
Proof.
  intros Hq. assert (H : q = 1 \/ q = 2 \/ q = 3) by lia.
  destruct H as [-> | [-> | ->]]; vm_compute; reflexivity.
Qed.

(** [np.percentile] in closed form, for the quartile [q] of 1, 2, 3 *)
Lemma np_percentile_eval arr q :
  1 <= len arr < 2 ^ 50 -> 1 <= q <= 3 ->
  let k := (len arr - 1) * q in
  np_percentile arr (25 * q)
  = lerp (nth (Z.to_nat (k / 4)) (np_sort arr) F64.nan)
         (nth (Z.to_nat (Z.min (k / 4 + 1) (len arr - 1))) (np_sort arr) F64.nan)
         (gamma_of (k mod 4)).
Proof.
  intros Hn Hq k. unfold np_percentile. rewrite quantile_float by assumption.
  destruct (virtual_index_spec (len arr) q Hn Hq) as [Hfl Hg].
  cbv zeta in Hfl, Hg. rewrite Hg, Hfl. reflexivity.
Qed.

(** value of a quartile of a sorted sample of moderate floats *)
Lemma quartile_value arr q :
  Forall moderate arr -> 1 <= len arr < 2 ^ 50 -> 1 <= q <= 3 ->
  let k := (len arr - 1) * q in
  let s := np_sort arr in
  let a := nth (Z.to_nat (k / 4)) s F64.nan in
  let b := nth (Z.to_nat (Z.min (k / 4 + 1) (len arr - 1))) s F64.nan in
  moderate a /\ moderate b /\ (B2Q a <= B2Q b)%Q
  /\ pnormal (np_percentile arr (25 * q))
  /\ (B2Q (np_percentile arr (25 * q)) == lerp_Q (B2Q a) (B2Q b) (k mod 4))%Q.
Proof.
  intros Hmod Hn Hq k s a b.
  pose proof (Z.div_mod k 4 ltac:(lia)) as Ek.
  pose proof (Z.mod_pos_bound k 4 ltac:(lia)) as Bk.
  assert (Hk : 0 <= k <= 3 * (len arr - 1)) by (unfold k; nia).
  assert (Hlen : length s = length arr) by apply np_sort_length.
  assert (Hi : (Z.to_nat (k / 4) < length s)%nat).
  { rewrite Hlen. unfold len in *. lia. }
  assert (Hj : (Z.to_nat (Z.min (k / 4 + 1) (len arr - 1)) < length s)%nat).
  { rewrite Hlen. unfold len in *. lia. }
  pose proof (np_sort_Forall moderate arr Hmod) as Hs. fold s in Hs.
  assert (Ha : moderate a) by (apply (proj1 (List.Forall_nth _ _) Hs); exact Hi).
  assert (Hb : moderate b) by (apply (proj1 (List.Forall_nth _ _) Hs); exact Hj).
  assert (Hab : (B2Q a <= B2Q b)%Q).
  { apply sorted_Q_nth; [apply np_sort_sorted, Hmod|]. split; [lia|exact Hj]. }
  split; [exact Ha|]. split; [exact Hb|]. split; [exact Hab|].
  rewrite (np_percentile_eval arr q Hn Hq). fold k s a b.
  apply lerp_value; try assumption. lia.
Qed.


(** * The claims *)

(** ** C1 *)




(** ** C3 *)

(** C3, counterexample: on an empty (non-null) sample and an observed value
    that is not NaN, [percentile_rank] does not return null: 0 / 0 is NaN
    and [round] raises [ValueError]. *)
Lemma percentile_rank_empty_raises :
  percentile_rank (Some []) f20 = Raise ValueError.
Proof. vm_compute. reflexivity. Qed.

(** C3, amended: [percentile_rank] returns null exactly when no sample
    array is available (it is null) or the observed value is NaN. *)
Theorem percentile_rank_null_iff (values_arr : option (list float)) (x : float) :
  percentile_rank values_arr x = Ok None
  <-> values_arr = None \/ F64.isnan x = true.
Proof.
  unfold percentile_rank. split.
  - destruct values_arr as [arr|]; [|auto].
    destruct (F64.isnan x); [auto|].
    destruct (F64.round_int _); cbn; discriminate.
  - intros [-> | Hx]; [reflexivity|].
    destruct values_arr; [rewrite Hx|]; reflexivity.
Qed.

(** ** C4 *)

(** C4: on a non-empty sample, [percentile_rank] of a finite value is an
    integer between 0 and 100, and it does not decrease when the observed
    value increases. *)
Theorem percentile_rank_range_monotone (arr : list float) (x1 x2 : float)
  (Hne : arr <> []) (Hlen : len arr <= PY_SSIZE_T_MAX)
  (Hx1 : F64.isfinite x1 = true) (Hx2 : F64.isfinite x2 = true)
  (Hle : F64.leb x1 x2 = true) :
  exists r1 r2,
    percentile_rank (Some arr) x1 = Ok (Some r1)
    /\ percentile_rank (Some arr) x2 = Ok (Some r2)
    /\ 0 <= r1 /\ r1 <= r2 /\ r2 <= 100.
Proof.
  unfold PY_SSIZE_T_MAX in Hlen.
  assert (Hn1 : F64.isnan x1 = false) by (destruct x1; try discriminate; reflexivity).
  assert (Hn2 : F64.isnan x2 = false) by (destruct x2; try discriminate; reflexivity).
  pose proof (count_lt_bounds arr x1) as B1.
  pose proof (count_lt_bounds arr x2) as B2.
  pose proof (count_lt_mono arr x1 x2 Hle) as Hm.
  assert (Hn : 0 < len arr) by (unfold len; destruct arr; [congruence|cbn [length]; lia]).
  exists (rank_Q (count_lt arr x1) (len arr)), (rank_Q (count_lt arr x2) (len arr)).
  split; [apply percentile_rank_eval; [assumption|lia|assumption]|].
  split; [apply percentile_rank_eval; [assumption|lia|assumption]|].
  destruct (Z.eq_dec (count_lt arr x1) 0) as [E1|E1].
  - rewrite E1, rank_Q_0.
    destruct (Z.eq_dec (count_lt arr x2) 0) as [E2|E2].
    + rewrite E2, rank_Q_0. lia.
    + pose proof (rank_Q_nonneg (count_lt arr x2) (len arr) ltac:(lia) Hn).
      pose proof (rank_Q_le_100 (count_lt arr x2) (len arr) ltac:(lia)). lia.
  - pose proof (rank_Q_nonneg (count_lt arr x1) (len arr) ltac:(lia) Hn).
    pose proof (rank_Q_mono (count_lt arr x1) (count_lt arr x2) (len arr) ltac:(lia) Hn).
    pose proof (rank_Q_le_100 (count_lt arr x2) (len arr) ltac:(lia)). lia.
Qed.

Lemma percentile_rank_range_monotone_witness :
  exists r1 r2,
    percentile_rank (Some [f10; f20; f20; f30]) f20 = Ok (Some r1)
    /\ percentile_rank (Some [f10; f20; f20; f30]) f30 = Ok (Some r2)
    /\ 0 <= r1 /\ r1 <= r2 /\ r2 <= 100.
Proof.
  apply (percentile_rank_range_monotone [f10; f20; f20; f30] f20 f30).
  - discriminate.
  - vm_compute. discriminate.
  - reflexivity.
  - reflexivity.
  - reflexivity.
Defined.

(** ** C5 *)

(** C5: for a summary [dict], [get_dist_stats] returns its p25, p50 and p75
    entries as they are (null for a missing key) and a null raw sample, on
    which [percentile_rank] returns null for every observed value. *)
Theorem get_dist_stats_summary (d : gmap string float) (x : float) :
  exists st,
    get_dist_stats (Some (Summary d)) = Some st
    /\ p25 st = d !! "p25" /\ p50 st = d !! "p50" /\ p75 st = d !! "p75"
    /\ values st = None
    /\ percentile_rank (values st) x = Ok None.
Proof. eexists. repeat split. Qed.

(** ** C7 *)

(** C7: the predicted trigger-day class is resolved through the mapping
    table, and a class the table does not hold yields the sentinel "N/A". *)
Theorem trigger_day_pred_lookup (mapping : gmap Z Z) (trigger_label : Z) :
  (forall day, mapping !! trigger_label = Some day ->
               trigger_day_pred mapping trigger_label = inl day)
  /\ (mapping !! trigger_label = None ->
      trigger_day_pred mapping trigger_label = inr "N/A").
Proof.
  unfold trigger_day_pred. split.
  - intros day ->. reflexivity.
  - intros ->. reflexivity.
Qed.

(** ** C9 *)

Lemma filter_len_nonzero (f : float -> bool) a :
  (len (List.filter f a) =? 0) = false -> List.filter f a <> [].
Proof. intros H E. rewrite E in H. discriminate. Qed.

(** C9: a non-null values field of a [get_dist_stats] result is a non-empty
    array, so the array length [percentile_rank] divides by is not zero and
    the call raises nothing. *)
Theorem get_dist_stats_values_nonempty (o : option dist_obj) (st : stats)
  (arr : list float) (Hst : get_dist_stats o = Some st)
  (Hv : values st = Some arr) :
  arr <> [] /\ len arr <> 0
  /\ (len arr <= PY_SSIZE_T_MAX ->
      forall x, exists r, percentile_rank (values st) x = Ok r).
Proof.
  assert (Hne : arr <> []).
  { destruct o as [[d|a]|]; cbn in Hst; try discriminate.
    - inversion Hst; subst st. discriminate.
    - destruct (len (List.filter _ a) =? 0) eqn:E; [discriminate|].
      inversion Hst; subst st. cbn in Hv. inversion Hv; subst arr.
      apply filter_len_nonzero, E. }
  split; [exact Hne|]. split.
  - unfold len. destruct arr; [congruence|cbn [length]; lia].
  - intros Hlen x. rewrite Hv. unfold PY_SSIZE_T_MAX in Hlen.
    destruct (F64.isnan x) eqn:Hx.
    + exists None. unfold percentile_rank. rewrite Hx. reflexivity.
    + eexists. apply percentile_rank_eval; [assumption|lia|assumption].
Qed.

Lemma get_dist_stats_values_nonempty_witness :
  [f10] <> [] /\ len [f10] <> 0
  /\ (len [f10] <= PY_SSIZE_T_MAX ->
      forall x, exists r,
        percentile_rank
          (values {| p25 := Some (np_percentile [f10] 25);
                     p50 := Some (np_percentile [f10] 50);
                     p75 := Some (np_percentile [f10] 75);
                     values := Some [f10] |}) x = Ok r).
Proof.
  apply (get_dist_stats_values_nonempty (Some (RawSample [f10]))).
  - reflexivity.
  - reflexivity.
Defined.

(** ** C8 *)




(** ** C6 *)





(** ** C2 *)

(** C2, counterexample: on [NaN, 10, 20, 30, 40] the quartiles are 17.5,
    25.0 and 32.5, not 15.0 and 35.0; and an infinite entry is not
    stripped. *)
Lemma get_dist_stats_example_quartiles :
  get_dist_stats (Some (RawSample [F64.nan; f10; f20; f30; f40]))
  = Some {| p25 := Some f17_5; p50 := Some f25; p75 := Some f32_5;
            values := Some [f10; f20; f30; f40] |}
  /\ F64.eqb f17_5 f15 = false
  /\ F64.eqb f32_5 f35 = false
  /\ values <$> get_dist_stats (Some (RawSample [F64.pinf; f10]))
     = Some (Some [F64.pinf; f10]).
Proof. vm_compute. repeat split; reflexivity. Qed.

Lemma filter_all_nan a :
  Forall (fun v => F64.isnan v = true) a ->
  List.filter (fun v => negb (F64.isnan v)) a = [].
Proof.
  induction 1 as [|v a Hv _ IH]; [reflexivity|].
  cbn [List.filter]. rewrite Hv. exact IH.
Qed.

Lemma filter_some_not_nan a :
  Exists (fun v => F64.isnan v = false) a ->
  List.filter (fun v => negb (F64.isnan v)) a <> [].
Proof.
  induction 1 as [v a Hv|v a _ IH]; cbn [List.filter].
  - rewrite Hv. discriminate.
  - destruct (negb (F64.isnan v)); [discriminate|exact IH].
Qed.

(** C2, amended: [get_dist_stats] strips the NaN entries of a raw array
    (infinite entries stay); when nothing is left, as for an all-NaN array,
    it returns null; otherwise it returns the linear-interpolation
    percentiles 25, 50 and 75 of the cleaned array together with the cleaned
    array; on [NaN, 10, 20, 30, 40] these are 17.5, 25.0 and 32.5 with a
    cleaned array of length 4. *)
Theorem get_dist_stats_raw (a : list float) :
  (Forall (fun v => F64.isnan v = true) a ->
   get_dist_stats (Some (RawSample a)) = None)
  /\ (Exists (fun v => F64.isnan v = false) a ->
      exists arr,
        arr = List.filter (fun v => negb (F64.isnan v)) a
        /\ arr <> []
        /\ get_dist_stats (Some (RawSample a))
           = Some {| p25 := Some (np_percentile arr 25);
                     p50 := Some (np_percentile arr 50);
                     p75 := Some (np_percentile arr 75);
                     values := Some arr |})
  /\ (exists arr,
        get_dist_stats (Some (RawSample [F64.nan; f10; f20; f30; f40]))
        = Some {| p25 := Some f17_5; p50 := Some f25; p75 := Some f32_5;
                  values := Some arr |}
        /\ length arr = 4%nat)
  /\ values <$> get_dist_stats (Some (RawSample [F64.pinf; f10]))
     = Some (Some [F64.pinf; f10]).
Proof.
  split; [|split; [|split]].
  - intros Hall. cbn [get_dist_stats]. rewrite (filter_all_nan a Hall). reflexivity.
  - intros Hex. pose proof (filter_some_not_nan a Hex) as Hne.
    eexists. split; [reflexivity|]. split; [exact Hne|].
    cbn [get_dist_stats].
    destruct (List.filter (fun v => negb (F64.isnan v)) a) as [|v arr] eqn:E;
      [congruence|].
    replace (len (v :: arr) =? 0) with false; [reflexivity|].
    symmetry. apply Z.eqb_neq. unfold len. cbn [length]. lia.
  - exists [f10; f20; f30; f40]. split; vm_compute; reflexivity.
  - vm_compute. reflexivity.
Qed.

(** ** C10 *)




Lemma moderate_samples : Forall moderate [f10; f20; f30; f40].
Proof.
  repeat (apply List.Forall_cons;
          [eexists _, _; split; [vm_compute; reflexivity|];
           split; [reflexivity|lia]|]).
  apply List.Forall_nil.
Qed.


(** * Further properties *)

Lemma rank_Q_full n : 0 < n -> rank_Q n n = 100.
Proof.
  intros Hn. unfold rank_Q.
  pose proof (RN_pos _ (inject_Z_pos n Hn)) as Y.
  assert (E1 : (RN (inject_Z n) / RN (inject_Z n) == inject_Z 1)%Q).
  { change (inject_Z 1) with 1%Q. field. lra. }
  assert (E : (RN (RN (RN (inject_Z n) / RN (inject_Z n)) * 100) == inject_Z 100)%Q).
  { rewrite E1, (RN_small_Z 1) by lia.
    change (inject_Z 1 * 100)%Q with (inject_Z 100). apply RN_small_Z. lia. }
  rewrite (Qrne_comp _ _ E). apply Qrne_inject_Z.
Qed.

(** X1: on a non-empty sample, the rank of a value that no entry lies
    strictly below (ties included) is 0, and the rank of a value above every
    entry is 100. *)
Theorem percentile_rank_extremes (arr : list float) (x : float)
  (Hne : arr <> []) (Hlen : len arr <= PY_SSIZE_T_MAX)
  (Hx : F64.isnan x = false) :
  (count_lt arr x = 0 -> percentile_rank (Some arr) x = Ok (Some 0))
  /\ (count_lt arr x = len arr -> percentile_rank (Some arr) x = Ok (Some 100)).
Proof.
  unfold PY_SSIZE_T_MAX in Hlen.
  assert (Hn : 0 < len arr) by (unfold len; destruct arr; [congruence|cbn [length]; lia]).
  rewrite percentile_rank_eval by (assumption || lia).
  split; intros ->; [rewrite rank_Q_0|rewrite rank_Q_full by assumption]; reflexivity.
Qed.

Lemma percentile_rank_extremes_witness :
  (count_lt [f20; f20] f20 = 0 -> percentile_rank (Some [f20; f20]) f20 = Ok (Some 0))
  /\ (count_lt [f20; f20] f20 = len [f20; f20] ->
      percentile_rank (Some [f20; f20]) f20 = Ok (Some 100)).
Proof.
  apply (percentile_rank_extremes [f20; f20] f20).
  - discriminate.
  - vm_compute. discriminate.
  - reflexivity.
Defined.

Lemma filter_len_le (f : float -> bool) a : len (List.filter f a) <= len a.
Proof. unfold len. apply Nat2Z.inj_le, List.filter_length_le. Qed.

Lemma plot_field_total e2p df i key fig :
  samples_fit e2p -> is_Some (df !! key) ->
  exists fig', plot_field e2p df i key fig = Ok fig'.
Proof.
  intros Hfit [val Hval]. unfold plot_field, column. rewrite Hval.
  cbn [mbind result_bind].
  destruct (e2p !! key) as [[d|a]|] eqn:Hd; cbn [get_dist_stats].
  - cbn [values p25 p75]. destruct (F64.isnan val) eqn:Hn; [eauto|].
    cbn [percentile_rank mbind result_bind]. eauto.
  - pose proof (Hfit key a Hd) as Hlen. unfold PY_SSIZE_T_MAX in Hlen.
    pose proof (filter_len_le (fun v => negb (F64.isnan v)) a) as Hle.
    set (arr := List.filter (fun v => negb (F64.isnan v)) a) in *.
    destruct (len arr =? 0) eqn:E0; [eauto|].
    apply Z.eqb_neq in E0. cbn [values p25 p75].
    destruct (F64.isnan val) eqn:Hn; [eauto|].
    rewrite percentile_rank_eval; [cbn [mbind result_bind]; eauto| |lia|assumption].
    intros ->. apply E0. reflexivity.
  - eauto.
Qed.

(** X2: when the form carries the three monitoring fields and every raw
    sample of the reference table fits in memory, the chart loop runs to
    completion on every figure: no field makes it raise. *)
Theorem plot_loop_total (e2_percentiles : gmap string dist_obj)
  (df : gmap string float) (fig : figure)
  (Hfit : samples_fit e2_percentiles)
  (Hcols : Forall (fun f => is_Some (df !! f.2)) E2_FIELDS) :
  exists fig', plot_loop e2_percentiles df E2_FIELDS fig = Ok fig'.
Proof.
  revert fig. induction Hcols as [|[i key] rest Hk _ IH]; intros fig.
  - cbn [plot_loop]. eauto.
  - cbn [plot_loop].
    destruct (plot_field_total e2_percentiles df i key fig Hfit Hk) as [fig1 ->].
    cbn [mbind result_bind]. apply IH.
Qed.

Lemma plot_loop_total_witness :
  exists fig',
    plot_loop (<["血E2_2" := RawSample [f10; F64.nan; f30]]> ∅)
      (input_df_filled ui_full) E2_FIELDS empty_figure = Ok fig'.
Proof.
  apply (plot_loop_total (<["血E2_2" := RawSample [f10; F64.nan; f30]]> ∅)
           (input_df_filled ui_full) empty_figure).
  - intros key a H. apply lookup_insert_Some in H as [[_ H]|[_ H]].
    + injection H as <-. vm_compute. discriminate.
    + rewrite lookup_empty in H. discriminate.
  - apply (bool_decide_unpack _). vm_compute. exact I.
Defined.

(** ** The form and the feature vectors *)

(** X3: whatever numbers the widgets return, the dict built by the sidebar
    has exactly the 28 model columns, so neither selection raises; each
    vector lists the widgets' numbers in the model's order (not in the
    display order), with 0.0 in place of a NaN. *)
Theorem form_feature_vectors (number_input : string -> float) :
  dom (user_input number_input) = list_to_set MODEL_ALL_FEATURES
  /\ X_core (user_input number_input)
     = Ok (map (fun c => fillna f_zero (number_input (widget_label c)))
               MODEL_CORE_FEATURES)
  /\ X_all (user_input number_input)
     = Ok (map (fun c => fillna f_zero (number_input (widget_label c)))
               MODEL_ALL_FEATURES).
Proof.
  split; [|split].
  - apply (bool_decide_unpack _). vm_compute. exact I.
  - vm_compute. reflexivity.
  - vm_compute. reflexivity.
Qed.

Lemma input_df_filled_lookup (ui : gmap string (option float)) (c : string) :
  input_df_filled ui !! c = (fun cell => fillna f_zero (astype_float cell)) <$> ui !! c.
Proof.
  unfold input_df_filled, input_df. rewrite !lookup_fmap.
  destruct (ui !! c); reflexivity.
Qed.

Lemma select_columns_outcome (df : gmap string float) (cols : list string) :
  (Forall (fun c => is_Some (df !! c)) cols /\ exists v, select_columns df cols = Ok v)
  \/ (exists k, In k cols /\ df !! k = None
                /\ select_columns df cols = Raise (KeyError k)).
Proof.
  induction cols as [|c cols IH]; [left; split; [constructor|eexists; reflexivity]|].
  cbn [select_columns]. destruct (df !! c) as [v|] eqn:Hc.
  - destruct IH as [[Hall [vs ->]]|[k (Hin & Hk & ->)]].
    + left. split; [constructor; [rewrite Hc; eauto|assumption]|].
      eexists. reflexivity.
    + right. exists k. split; [right; assumption|]. split; [assumption|reflexivity].
  - right. exists c. split; [left; reflexivity|]. split; [assumption|reflexivity].
Qed.

(** X4: the all-features selection succeeds exactly when the input mapping
    holds every one of the 28 model names (further keys are ignored);
    otherwise it raises [KeyError] for a model name the mapping lacks. *)
Theorem X_all_keyerror_iff (ui : gmap string (option float)) :
  ((exists v, X_all ui = Ok v)
   <-> Forall (fun c => is_Some (ui !! c)) MODEL_ALL_FEATURES)
  /\ ((exists k, X_all ui = Raise (KeyError k))
      <-> Exists (fun c => ui !! c = None) MODEL_ALL_FEATURES)
  /\ (forall e, X_all ui = Raise e ->
      exists k, e = KeyError k /\ In k MODEL_ALL_FEATURES /\ ui !! k = None).
Proof.
  unfold X_all.
  assert (Hlk : forall c, input_df_filled ui !! c = None <-> ui !! c = None).
  { intros c. rewrite input_df_filled_lookup. destruct (ui !! c); split; cbn; congruence. }
  assert (Hs : forall c, is_Some (input_df_filled ui !! c) <-> is_Some (ui !! c)).
  { intros c. rewrite <- !not_eq_None_Some, Hlk. reflexivity. }
  destruct (select_columns_outcome (input_df_filled ui) MODEL_ALL_FEATURES)
    as [[Hall [v Hv]]|[k (Hin & Hk & Hr)]].
  - assert (Hall' : Forall (fun c => is_Some (ui !! c)) MODEL_ALL_FEATURES).
    { eapply List.Forall_impl; [|exact Hall]. intros c. apply Hs. }
    rewrite Hv. split; [split; [intros _; exact Hall'|intros _; eauto]|].
    split; [|intros e He; discriminate].
    split; [intros [k Hk]; discriminate|].
    intros Hex. apply List.Exists_exists in Hex as [c [Hin Hc]].
    rewrite List.Forall_forall in Hall'. specialize (Hall' c Hin).
    rewrite Hc in Hall'. destruct Hall' as [? ?]. discriminate.
  - rewrite Hr. apply Hlk in Hk.
    split; [split; [intros [v Hv]; discriminate|]|].
    + intros Hall. rewrite List.Forall_forall in Hall. specialize (Hall k Hin).
      rewrite Hk in Hall. destruct Hall as [? ?]. discriminate.
    + split.
      * split; [intros _|intros _; eauto].
        apply List.Exists_exists. exists k. split; assumption.
      * intros e He. injection He as <-. exists k. repeat split; assumption.
Qed.

Lemma select_columns_app (df : gmap string float) (l1 l2 : list string) v :
  select_columns df (l1 ++ l2) = Ok v ->
  select_columns df l1 = Ok (take (length l1) v)
  /\ select_columns df l2 = Ok (drop (length l1) v).
Proof.
  revert v. induction l1 as [|c l1 IH]; intros v Hv.
  - cbn in *. split; [reflexivity|assumption].
  - cbn [app select_columns] in *. destruct (df !! c) as [x|]; [|discriminate].
    destruct (select_columns df (l1 ++ l2)) as [vs|] eqn:E; [|discriminate].
    cbn in Hv. injection Hv as <-. destruct (IH vs eq_refl) as [-> ->].
    split; reflexivity.
Qed.

(** X5: when the all-features vector is built, the core vector is built too,
    and the two agree: the core vector is the first ten entries of the
    all-features vector, which has twenty-eight. *)
Theorem X_core_prefix_of_X_all (ui : gmap string (option float)) (v : list float)
  (Hall : X_all ui = Ok v) :
  X_core ui = Ok (take 10 v) /\ length v = 28%nat.
Proof.
  unfold X_all, X_core, MODEL_ALL_FEATURES in *.
  destruct (select_columns_app _ _ _ _ Hall) as [Hc _].
  split; [exact Hc|].
  assert (Hlen : forall cols w, select_columns (input_df_filled ui) cols = Ok w ->
                                length w = length cols).
  { induction cols as [|c cols IH]; intros w Hw; cbn [select_columns] in Hw.
    - injection Hw as <-. reflexivity.
    - destruct (_ !! c); [|discriminate].
      destruct (select_columns _ cols) as [vs|]; [|discriminate].
      cbn in Hw. injection Hw as <-. cbn [length]. rewrite (IH vs eq_refl). reflexivity. }
  apply Hlen in Hall. exact Hall.
Qed.

Lemma X_core_prefix_of_X_all_witness :
  X_core ui_full = Ok (take 10 (map (fun n => F64.of_Z (Z.of_nat n)) (seq 1 28)))
  /\ length (map (fun n => F64.of_Z (Z.of_nat n)) (seq 1 28)) = 28%nat.
Proof.
  apply (X_core_prefix_of_X_all ui_full). vm_compute. reflexivity.
Defined.

(** ** The plots on the filled frame *)

Lemma input_df_filled_not_nan (ui : gmap string (option float)) (c : string) v :
  input_df_filled ui !! c = Some v -> F64.isnan v = false.
Proof.
  rewrite input_df_filled_lookup. destruct (ui !! c) as [cell|]; [|discriminate].
  cbn. intros [= <-]. unfold fillna.
  destruct (F64.isnan (astype_float cell)) eqn:E; [reflexivity|exact E].
Qed.

Lemma plot_field_filled e2p ui i key fig fig' :
  plot_field e2p (input_df_filled ui) i key fig = Ok fig' ->
  exists new_ax new_text,
    ax fig' = ax fig ++ new_ax
    /\ percentile_text fig' = percentile_text fig ++ new_text
    /\ map (fun t => t.1.1) new_text = List.filter (usable e2p) [key]
    /\ Forall (fun t =>
                 input_df_filled ui !! t.1.1 = Some t.1.2
                 /\ exists st, get_dist_stats (e2p !! t.1.1) = Some st
                               /\ percentile_rank (values st) t.1.2 = Ok t.2)
              new_text.
Proof.
  unfold plot_field, column, usable.
  destruct (input_df_filled ui !! key) as [val|] eqn:Hval; [|discriminate].
  cbn [mbind result_bind List.filter].
  destruct (get_dist_stats (e2p !! key)) as [st|] eqn:Hst.
  - rewrite (input_df_filled_not_nan _ _ _ Hval).
    destruct (percentile_rank (values st) val) as [pr|] eqn:Hpr; [|discriminate].
    cbn [mbind result_bind]. intros [= <-].
    set (fig1 := match p25 st, p75 st with
                 | Some lo, Some hi => draw (Line i lo hi) fig
                 | _, _ => fig
                 end).
    assert (H1 : exists l, ax fig1 = ax fig ++ l
                           /\ percentile_text fig1 = percentile_text fig).
    { subst fig1. destruct (p25 st), (p75 st);
        try (exists []; rewrite app_nil_r; split; reflexivity).
      eexists. split; reflexivity. }
    destruct H1 as (l & Hax & Htx).
    exists (l ++ [Scatter i val; Text i val pr]), [(key, val, pr)].
    cbn [annotate draw ax percentile_text]. rewrite Hax, Htx, <- !app_assoc.
    split; [reflexivity|]. split; [reflexivity|]. split; [reflexivity|].
    constructor; [|constructor]. cbn. split; [assumption|]. eauto.
  - intros [= <-]. exists [], []. rewrite !app_nil_r.
    repeat split; constructor.
Qed.

(** X6: on the filled frame the loop only ever adds to the figure, and it
    appends exactly one line of explanation for each field that has
    reference statistics, in the order of the fields (the NaN guard never
    fires after [fillna]); each line holds the field's cell and its rank
    against the field's statistics. *)
Theorem plot_loop_annotations (e2_percentiles : gmap string dist_obj)
  (ui : gmap string (option float)) (fields : list (Z * string))
  (fig fig' : figure)
  (Hrun : plot_loop e2_percentiles (input_df_filled ui) fields fig = Ok fig') :
  exists new_ax new_text,
    ax fig' = ax fig ++ new_ax
    /\ percentile_text fig' = percentile_text fig ++ new_text
    /\ map (fun t => t.1.1) new_text
       = List.filter (usable e2_percentiles) (map snd fields)
    /\ Forall (fun t =>
                 input_df_filled ui !! t.1.1 = Some t.1.2
                 /\ F64.isnan t.1.2 = false
                 /\ exists st, get_dist_stats (e2_percentiles !! t.1.1) = Some st
                               /\ percentile_rank (values st) t.1.2 = Ok t.2)
              new_text.
Proof.
  revert fig Hrun. induction fields as [|[i key] rest IH]; intros fig Hrun.
  - cbn in Hrun. injection Hrun as <-. exists [], []. rewrite !app_nil_r.
    repeat split; constructor.
  - cbn [plot_loop] in Hrun.
    destruct (plot_field e2_percentiles (input_df_filled ui) i key fig)
      as [fig1|] eqn:H1; [|discriminate].
    cbn [mbind result_bind] in Hrun.
    destruct (plot_field_filled _ _ _ _ _ _ H1) as (a1 & t1 & Ha1 & Ht1 & Hk1 & Hf1).
    destruct (IH fig1 Hrun) as (a2 & t2 & Ha2 & Ht2 & Hk2 & Hf2).
    exists (a1 ++ a2), (t1 ++ t2).
    rewrite Ha2, Ha1, Ht2, Ht1, <- !app_assoc.
    split; [reflexivity|]. split; [reflexivity|]. split.
    + rewrite map_app, Hk1, Hk2. cbn [map snd List.filter].
      destruct (usable e2_percentiles key); reflexivity.
    + apply Forall_app. split; [|exact Hf2].
      eapply List.Forall_impl; [|exact Hf1]. cbn beta.
      intros t (Hc & Hs). split; [exact Hc|]. split; [|exact Hs].
      eapply input_df_filled_not_nan; exact Hc.
Qed.

Lemma plot_loop_annotations_witness :
  exists new_ax new_text,
    ax {| ax := [Line 2 f20 f20; Scatter 2 (F64.of_Z 16); Text 2 (F64.of_Z 16) (Some 0)];
          percentile_text := [("血E2_2", F64.of_Z 16, Some 0)] |}
    = ax empty_figure ++ new_ax
    /\ percentile_text
         {| ax := [Line 2 f20 f20; Scatter 2 (F64.of_Z 16); Text 2 (F64.of_Z 16) (Some 0)];
            percentile_text := [("血E2_2", F64.of_Z 16, Some 0)] |}
       = percentile_text empty_figure ++ new_text
    /\ map (fun t => t.1.1) new_text
       = List.filter (usable sample_table)
                     (map snd E2_FIELDS)
    /\ Forall (fun t =>
                 input_df_filled ui_full !! t.1.1 = Some t.1.2
                 /\ F64.isnan t.1.2 = false
                 /\ exists st,
                     get_dist_stats
                       (sample_table !! t.1.1) = Some st
                     /\ percentile_rank (values st) t.1.2 = Ok t.2)
              new_text.
Proof.
  apply (plot_loop_annotations sample_table
           ui_full E2_FIELDS empty_figure).
  vm_compute. reflexivity.
Defined.

Lemma get_dist_stats_none_iff (o : option dist_obj) :
  get_dist_stats o = None
  <-> o = None
      \/ exists a, o = Some (RawSample a) /\ Forall (fun v => F64.isnan v = true) a.
Proof.
  split.
  - destruct o as [[d|a]|]; cbn [get_dist_stats]; [discriminate| |left; reflexivity].
    destruct (len _ =? 0) eqn:E; [|discriminate]. intros _. right. exists a.
    split; [reflexivity|]. apply Z.eqb_eq in E. unfold len in E.
    induction a as [|v a IH]; [constructor|]. cbn [List.filter] in E.
    destruct (F64.isnan v) eqn:Hv; cbn [negb length] in E; [|lia].
    constructor; [exact Hv|apply IH, E].
  - intros [->|[a [-> Ha]]]; [reflexivity|]. cbn [get_dist_stats].
    rewrite (filter_all_nan a Ha). reflexivity.
Qed.

Lemma input_df_filled_cell (ui : gmap string (option float)) (c : string) :
  is_Some (ui !! c) -> input_df_filled ui !! c = Some (cell_value ui c).
Proof.
  intros [cell Hc]. rewrite input_df_filled_lookup. unfold cell_value. rewrite Hc.
  cbn. unfold fillna. destruct cell as [v|]; reflexivity.
Qed.

Lemma cell_value_not_nan (ui : gmap string (option float)) (c : string) :
  F64.isnan (cell_value ui c) = false.
Proof.
  unfold cell_value. destruct (ui !! c) as [[v|]|]; try reflexivity.
  destruct (F64.isnan v) eqn:E; [reflexivity|exact E].
Qed.

Lemma rank_Q_range k n : 0 <= k <= n -> 0 < n -> 0 <= rank_Q k n <= 100.
Proof.
  intros Hk Hn. destruct (Z.eq_dec k 0) as [->|Hk0].
  - rewrite rank_Q_0. lia.
  - split; [apply rank_Q_nonneg; lia|apply rank_Q_le_100; lia].
Qed.

(** X7: on the filled frame with its baseline-E2 column, and a reference
    table whose samples fit in memory, the baseline section never raises.
    It shows the warning exactly when the table has no entry under its
    baseline key or a raw one without a single number; for a summary entry
    it shows the chart with no percentile, and for a raw entry with a number
    the chart with a percentile between 0 and 100. *)
Theorem baseline_plot_outcome (e2_percentiles : gmap string dist_obj)
  (ui : gmap string (option float))
  (Hfit : samples_fit e2_percentiles) (Hcol : is_Some (ui !! base_e2_key)) :
  (baseline_plot e2_percentiles (input_df_filled ui) = Ok Warning
   <-> e2_percentiles !! "基础E2" = None
       \/ exists a, e2_percentiles !! "基础E2" = Some (RawSample a)
                    /\ Forall (fun v => F64.isnan v = true) a)
  /\ (forall d, e2_percentiles !! "基础E2" = Some (Summary d) ->
      exists fig2,
        baseline_plot e2_percentiles (input_df_filled ui)
        = Ok (Chart fig2 (cell_value ui base_e2_key) None))
  /\ (forall a, e2_percentiles !! "基础E2" = Some (RawSample a) ->
      Exists (fun v => F64.isnan v = false) a ->
      exists fig2 r,
        baseline_plot e2_percentiles (input_df_filled ui)
        = Ok (Chart fig2 (cell_value ui base_e2_key) (Some r))
        /\ 0 <= r <= 100).
Proof.
  unfold baseline_plot, column. rewrite (input_df_filled_cell _ _ Hcol).
  cbn [mbind result_bind]. rewrite cell_value_not_nan. cbn [negb].
  set (val := cell_value ui base_e2_key).
  pose proof (cell_value_not_nan ui base_e2_key) as Hval. fold val in Hval.
  assert (Hraw : forall a, e2_percentiles !! "基础E2" = Some (RawSample a) ->
            Exists (fun v => F64.isnan v = false) a ->
            exists st arr r, get_dist_stats (Some (RawSample a)) = Some st
              /\ values st = Some arr
              /\ percentile_rank (Some arr) val = Ok (Some r) /\ 0 <= r <= 100).
  { intros a Ha Hex. cbn [get_dist_stats].
    pose proof (filter_some_not_nan a Hex) as Hne.
    pose proof (filter_len_le (fun v => negb (F64.isnan v)) a) as Hle.
    pose proof (Hfit _ _ Ha) as Hlen. unfold PY_SSIZE_T_MAX in Hlen.
    set (arr := List.filter (fun v => negb (F64.isnan v)) a) in *.
    assert (Hn : 0 < len arr) by (unfold len; destruct arr; [congruence|cbn [length]; lia]).
    destruct (len arr =? 0) eqn:E; [apply Z.eqb_eq in E; lia|].
    eexists _, arr, _. split; [reflexivity|]. split; [reflexivity|].
    split; [apply percentile_rank_eval; [assumption|lia|assumption]|].
    apply rank_Q_range; [apply count_lt_bounds|assumption]. }
  split; [|split].
  - rewrite <- get_dist_stats_none_iff.
    destruct (e2_percentiles !! "基础E2") as [[d|a]|] eqn:Hd.
    + cbn [get_dist_stats values percentile_rank mbind result_bind].
      split; discriminate.
    + destruct (get_dist_stats (Some (RawSample a))) as [st|] eqn:Hst;
        [|split; reflexivity].
      split; [|discriminate]. intros H. exfalso.
      assert (Hex : Exists (fun v => F64.isnan v = false) a).
      { destruct (List.Forall_Exists_dec (fun v => F64.isnan v = true)
                    (fun v => bool_dec (F64.isnan v) true) a) as [Hall|Hex].
        - rewrite (proj2 (get_dist_stats_none_iff (Some (RawSample a)))) in Hst;
            [discriminate|].
          right. exists a. split; [reflexivity|exact Hall].
        - eapply List.Exists_impl; [|exact Hex]. cbn beta. intros v Hv.
          destruct (F64.isnan v); congruence. }
      destruct (Hraw a eq_refl Hex) as (st' & arr & r & Hst' & Hv & Hr & _).
      rewrite Hst in Hst'. injection Hst' as <-. rewrite Hv, Hr in H.
      cbn [mbind result_bind] in H. discriminate.
    + cbn [get_dist_stats]. split; reflexivity.
  - intros d ->. cbn [get_dist_stats values percentile_rank mbind result_bind].
    eexists. reflexivity.
  - intros a Ha Hex. destruct (Hraw a Ha Hex) as (st & arr & r & Hst & Hv & Hr & Hrange).
    rewrite Ha, Hst, Hv, Hr. cbn [mbind result_bind]. eexists _, r.
    split; [reflexivity|exact Hrange].
Qed.

Lemma baseline_plot_outcome_witness :
  (baseline_plot sample_table (input_df_filled ui_full) = Ok Warning
   <-> sample_table !! "基础E2" = None
       \/ exists a, sample_table !! "基础E2" = Some (RawSample a)
                    /\ Forall (fun v => F64.isnan v = true) a)
  /\ (forall d, sample_table !! "基础E2" = Some (Summary d) ->
      exists fig2,
        baseline_plot sample_table (input_df_filled ui_full)
        = Ok (Chart fig2 (cell_value ui_full base_e2_key) None))
  /\ (forall a, sample_table !! "基础E2" = Some (RawSample a) ->
      Exists (fun v => F64.isnan v = false) a ->
      exists fig2 r,
        baseline_plot sample_table (input_df_filled ui_full)
        = Ok (Chart fig2 (cell_value ui_full base_e2_key) (Some r))
        /\ 0 <= r <= 100).
Proof.
  apply (baseline_plot_outcome sample_table ui_full).
  - intros key a H. unfold sample_table in H.
    apply lookup_insert_Some in H as [[_ H]|[_ H]];
      [injection H as <-; vm_compute; discriminate|].
    apply lookup_insert_Some in H as [[_ H]|[_ H]];
      [injection H as <-; vm_compute; discriminate|].
    rewrite lookup_empty in H. discriminate.
  - apply (bool_decide_unpack _). vm_compute. exact I.
Defined.

(** ** More on [get_dist_stats] *)

Lemma filter_idem (f : float -> bool) a :
  List.filter f (List.filter f a) = List.filter f a.
Proof.
  induction a as [|v a IH]; [reflexivity|]. cbn [List.filter].
  destruct (f v) eqn:E; [|exact IH]. cbn [List.filter]. rewrite E, IH. reflexivity.
Qed.

(** X8: the cleaned array that [get_dist_stats] returns is a fixed point of
    the cleaning: given back as a raw sample it yields the very same
    statistics, quartiles and array alike. *)
Theorem get_dist_stats_values_roundtrip (o : option dist_obj) (st : stats)
  (arr : list float)
  (Hst : get_dist_stats o = Some st) (Hv : values st = Some arr) :
  get_dist_stats (Some (RawSample arr)) = Some st.
Proof.
  destruct o as [[d|a]|]; cbn [get_dist_stats] in Hst; [|  |discriminate].
  - injection Hst as <-. discriminate.
  - destruct (len _ =? 0) eqn:E; [discriminate|]. injection Hst as <-.
    cbn [values] in Hv. injection Hv as <-. cbn [get_dist_stats].
    rewrite filter_idem, E. reflexivity.
Qed.

Lemma get_dist_stats_values_roundtrip_witness :
  get_dist_stats (Some (RawSample [f10; f20; f30; f40]))
  = Some {| p25 := Some f17_5; p50 := Some f25; p75 := Some f32_5;
            values := Some [f10; f20; f30; f40] |}.
Proof.
  apply (get_dist_stats_values_roundtrip
           (Some (RawSample [F64.nan; f10; f20; f30; f40]))).
  - vm_compute. reflexivity.
  - reflexivity.
Defined.






(** ** Quartiles and the sample *)

Lemma moderate_pnormal x : moderate x -> pnormal x.
Proof. intros (M & E & -> & HM & _). exists M, E. split; [reflexivity|exact HM]. Qed.

Lemma pnormal_leb x y :
  pnormal x -> pnormal y -> (F64.leb x y = true <-> (B2Q x <= B2Q y)%Q).
Proof.
  intros (M1 & E1 & -> & H1) (M2 & E2 & -> & H2). unfold F64.leb.
  apply SFleb_normal53; assumption.
Qed.

Lemma quartile_index_bounds n q :
  1 <= n -> 1 <= q <= 3 ->
  0 <= (n - 1) * q / 4 < n /\ 0 <= Z.min ((n - 1) * q / 4 + 1) (n - 1) < n.
Proof.
  intros Hn Hq.
  assert (H0 : 0 <= (n - 1) * q / 4) by (apply Z.div_pos; nia).
  assert (H1 : (n - 1) * q / 4 <= n - 1).
  { apply Z.div_le_upper_bound; nia. }
  lia.
Qed.

Lemma np_sort_nth_In arr i :
  (i < length arr)%nat -> In (nth i (np_sort arr) F64.nan) arr.
Proof.
  intros Hi.
  assert (H : Forall (fun y => In y arr) (np_sort arr)).
  { apply np_sort_Forall. apply List.Forall_forall. auto. }
  rewrite List.Forall_nth in H. apply H. rewrite np_sort_length. exact Hi.
Qed.

Lemma quartile_between arr q :
  Forall moderate arr -> 1 <= len arr < 2 ^ 50 -> 1 <= q <= 3 ->
  exists lo hi, In lo arr /\ In hi arr
    /\ F64.leb lo (np_percentile arr (25 * q)) = true
    /\ F64.leb (np_percentile arr (25 * q)) hi = true.
Proof.
  intros Hmod Hlen Hq.
  destruct (quartile_value arr q Hmod Hlen Hq) as (Ha & Hb & Hab & Hp & Hval).
  destruct (quartile_index_bounds (len arr) q ltac:(lia) Hq) as [I1 I2].
  set (k := (len arr - 1) * q) in *.
  set (a := nth (Z.to_nat (k / 4)) (np_sort arr) F64.nan) in *.
  set (b := nth (Z.to_nat (Z.min (k / 4 + 1) (len arr - 1))) (np_sort arr) F64.nan) in *.
  destruct (moderate_value a Ha) as [[Ha0 _] EA].
  destruct (moderate_value b Hb) as [_ EB].
  assert (HA : (0 < B2Q a)%Q).
  { eapply Qlt_le_trans; [apply (pow2_pos (-948))|exact Ha0]. }
  assert (Hk : 0 <= k mod 4 <= 3) by (pose proof (Z.mod_pos_bound k 4); lia).
  pose proof (lerp_Q_bounds _ _ HA Hab EA EB (k mod 4) Hk) as [L U].
  rewrite <- Hval in L, U.
  exists a, b. unfold len in *.
  split; [apply np_sort_nth_In; lia|]. split; [apply np_sort_nth_In; lia|].
  split; apply pnormal_leb; auto using moderate_pnormal.
Qed.

Lemma get_dist_stats_raw_fields a st arr :
  get_dist_stats (Some (RawSample a)) = Some st -> values st = Some arr ->
  arr <> [] /\ 1 <= len arr
  /\ p25 st = Some (np_percentile arr 25)
  /\ p50 st = Some (np_percentile arr 50)
  /\ p75 st = Some (np_percentile arr 75).
Proof.
  cbn [get_dist_stats]. destruct (len _ =? 0) eqn:E; [discriminate|].
  intros [= <-]. cbn [values]. intros [= <-]. apply Z.eqb_neq in E.
  split; [intros H; rewrite H in E; apply E; reflexivity|].
  split; [unfold len in *; lia|]. repeat split.
Qed.

(** X10: for a cleaned sample of fewer than 2^50 positive normal numbers
    between 2^-948 and 2^1013, each of the three quartiles lies within the
    sample: some entry is at most the quartile and some entry is at least
    it. *)
Theorem quartiles_within_sample (a : list float) (st : stats) (arr : list float)
  (q : float)
  (Hst : get_dist_stats (Some (RawSample a)) = Some st)
  (Hv : values st = Some arr)
  (Hmod : Forall moderate arr) (Hlen : len arr < 2 ^ 50)
  (Hq : p25 st = Some q \/ p50 st = Some q \/ p75 st = Some q) :
  exists lo hi, In lo arr /\ In hi arr
                /\ F64.leb lo q = true /\ F64.leb q hi = true.
Proof.
  destruct (get_dist_stats_raw_fields _ _ _ Hst Hv) as (_ & Hn & H25 & H50 & H75).
  rewrite H25, H50, H75 in Hq.
  destruct Hq as [[= <-] | [[= <-] | [= <-]]].
  - apply (quartile_between arr 1); [assumption|lia|lia].
  - apply (quartile_between arr 2); [assumption|lia|lia].
  - apply (quartile_between arr 3); [assumption|lia|lia].
Qed.

Lemma quartiles_within_sample_witness :
  exists lo hi, In lo [f10; f20; f30; f40] /\ In hi [f10; f20; f30; f40]
                /\ F64.leb lo f17_5 = true /\ F64.leb f17_5 hi = true.
Proof.
  apply (quartiles_within_sample [F64.nan; f10; f20; f30; f40]
           {| p25 := Some f17_5; p50 := Some f25; p75 := Some f32_5;
              values := Some [f10; f20; f30; f40] |}).
  - vm_compute. reflexivity.
  - reflexivity.
  - exact moderate_samples.
  - vm_compute. reflexivity.
  - left. reflexivity.
Defined.

(** X11: for such a sample of odd size the median is one of its entries,
    the middle one of the sorted sample; nothing is interpolated. *)
Theorem median_of_odd_sample (a : list float) (st : stats) (arr : list float)
  (m : float)
  (Hst : get_dist_stats (Some (RawSample a)) = Some st)
  (Hv : values st = Some arr)
  (Hmod : Forall moderate arr) (Hlen : len arr < 2 ^ 50)
  (Hodd : Z.odd (len arr) = true)
  (Hm : p50 st = Some m) :
  In m arr /\ m = nth (Z.to_nat (len arr / 2)) (np_sort arr) F64.nan.
Proof.
  destruct (get_dist_stats_raw_fields _ _ _ Hst Hv) as (_ & Hn & _ & H50 & _).
  rewrite H50 in Hm. injection Hm as <-.
  destruct (quartile_value arr 2 Hmod ltac:(lia) ltac:(lia)) as (Ha & _ & _ & Hp & Hval).
  change (25 * 2) with 50 in *.
  rewrite Z.odd_spec in Hodd. destruct Hodd as [h Hh].
  assert (E4 : ((len arr - 1) * 2) mod 4 = 0).
  { replace ((len arr - 1) * 2) with (h * 4) by lia. apply Z.mod_mul. lia. }
  assert (Ed : (len arr - 1) * 2 / 4 = len arr / 2).
  { replace ((len arr - 1) * 2) with (h * 4) by lia. rewrite Z.div_mul by lia.
    rewrite Hh. replace (2 * h + 1) with (1 + h * 2) by lia.
    rewrite Z.div_add by lia. reflexivity. }
  rewrite E4, Ed in *. cbn [lerp_Q] in Hval.
  assert (E : np_percentile arr 50
              = nth (Z.to_nat (len arr / 2)) (np_sort arr) F64.nan).
  { apply pnormal_eq; [exact Hp|apply moderate_pnormal, Ha|exact Hval]. }
  split; [|exact E]. rewrite E. apply np_sort_nth_In.
  unfold len in *. apply Nat2Z.inj_lt. rewrite Z2Nat.id by (apply Z.div_pos; lia).
  apply Z.div_lt_upper_bound; lia.
Qed.

Lemma median_of_odd_sample_witness :
  In f20 [f30; f10; f20]
  /\ f20 = nth (Z.to_nat (len [f30; f10; f20] / 2)) (np_sort [f30; f10; f20]) F64.nan.
Proof.
  apply (median_of_odd_sample [f30; F64.nan; f10; f20]
           {| p25 := Some f15; p50 := Some f20; p75 := Some f25;
              values := Some [f30; f10; f20] |}).
  - vm_compute. reflexivity.
  - reflexivity.
  - pose proof moderate_samples as H.
    inversion H as [|? ? H10 H1]; subst. inversion H1 as [|? ? H20 H2]; subst.
    inversion H2 as [|? ? H30 _]; subst. repeat constructor; assumption.
  - vm_compute. reflexivity.
  - reflexivity.
  - reflexivity.
Defined.

(** ** Order of the sample *)

Lemma np_sum_perm (f : float -> bool) a b :
  Permutation a b -> np_sum (map f a) = np_sum (map f b).
Proof.
  induction 1 as [|v a b _ IH|v w a|a b c _ IH1 _ IH2];
    cbn [map np_sum fold_right]; fold np_sum.
  - reflexivity.
  - fold (np_sum (map f a)). fold (np_sum (map f b)). rewrite IH. reflexivity.
  - fold (np_sum (map f a)). lia.
  - congruence.
Qed.

(** X12: the rank of a value does not depend on the order of the
    reference sample: two arrays that are permutations of each other give
    the same result, error cases included. *)
Theorem percentile_rank_order_independent (a b : list float) (x : float)
  (Hperm : Permutation a b) :
  percentile_rank (Some a) x = percentile_rank (Some b) x.
Proof.
  unfold percentile_rank. rewrite (np_sum_perm _ a b Hperm).
  unfold len. rewrite (Permutation_length Hperm). reflexivity.
Qed.

Lemma percentile_rank_order_independent_witness :
  percentile_rank (Some [f30; f10; f20]) f20
  = percentile_rank (Some [f10; f30; f20]) f20.
Proof.
  apply (percentile_rank_order_independent [f30; f10; f20] [f10; f30; f20]).
  apply perm_swap.
Defined.

Lemma insert_sorted_perm x l : Permutation (insert_sorted x l) (x :: l).
Proof.
  induction l as [|y l IH]; [reflexivity|]. cbn [insert_sorted].
  destruct (F64.leb x y || F64.isnan y); [reflexivity|].
  rewrite IH. apply perm_swap.
Qed.

Lemma np_sort_perm l : Permutation (np_sort l) l.
Proof.
  induction l as [|x l IH]; [reflexivity|]. cbn [np_sort fold_right].
  fold (np_sort l). rewrite insert_sorted_perm, IH. reflexivity.
Qed.

Lemma sorted_perm_eq l1 : forall l2,
  Forall moderate l1 -> sorted_Q l1 -> sorted_Q l2 -> Permutation l1 l2 -> l1 = l2.
Proof.
  induction l1 as [|x l1 IH]; intros l2 Hmod S1 S2 Hp.
  - apply Permutation_nil in Hp. congruence.
  - destruct l2 as [|y l2]; [apply Permutation_sym, Permutation_nil in Hp; discriminate|].
    cbn [sorted_Q] in S1, S2. destruct S1 as [F1 S1], S2 as [F2 S2].
    assert (Hmod2 : Forall moderate (y :: l2)).
    { rewrite List.Forall_forall in *. intros z Hz. apply Hmod.
      eapply Permutation_in; [apply Permutation_sym, Hp|exact Hz]. }
    assert (Hxy : (B2Q x <= B2Q y)%Q).
    { assert (Hin : In y (x :: l1)).
      { eapply Permutation_in; [apply Permutation_sym, Hp|left; reflexivity]. }
      destruct Hin as [->|Hin]; [lra|].
      rewrite List.Forall_forall in F1. apply F1, Hin. }
    assert (Hyx : (B2Q y <= B2Q x)%Q).
    { assert (Hin : In x (y :: l2)).
      { eapply Permutation_in; [exact Hp|left; reflexivity]. }
      destruct Hin as [->|Hin]; [lra|].
      rewrite List.Forall_forall in F2. apply F2, Hin. }
    assert (E : x = y).
    { apply pnormal_eq.
      - apply moderate_pnormal. inversion Hmod; assumption.
      - apply moderate_pnormal. inversion Hmod2; assumption.
      - lra. }
    subst y. f_equal. apply IH; [inversion Hmod; assumption|assumption|assumption|].
    eapply Permutation_cons_inv, Hp.
Qed.

Lemma np_sort_perm_eq a b :
  Forall moderate a -> Permutation a b -> np_sort a = np_sort b.
Proof.
  intros Hmod Hp.
  assert (Hmodb : Forall moderate b).
  { rewrite List.Forall_forall in *. intros z Hz. apply Hmod.
    eapply Permutation_in; [apply Permutation_sym, Hp|exact Hz]. }
  apply sorted_perm_eq.
  - apply np_sort_Forall, Hmod.
  - apply np_sort_sorted, Hmod.
  - apply np_sort_sorted, Hmodb.
  - rewrite !np_sort_perm. exact Hp.
Qed.

Lemma filter_all_true (f : float -> bool) a :
  Forall (fun v => f v = true) a -> List.filter f a = a.
Proof.
  induction 1 as [|v a Hv _ IH]; [reflexivity|]. cbn [List.filter].
  rewrite Hv, IH. reflexivity.
Qed.

Lemma moderate_not_nan a :
  Forall moderate a -> List.filter (fun v => negb (F64.isnan v)) a = a.
Proof.
  intros H. apply filter_all_true. eapply List.Forall_impl; [|exact H].
  intros v (M & E & -> & _). reflexivity.
Qed.

(** X13: the quartiles do not depend on the order of the raw sample
    either: for positive normal numbers between 2^-948 and 2^1013, a
    permuted array gives the same p25, p50 and p75. *)
Theorem quartiles_order_independent (a b : list float)
  (Hperm : Permutation a b) (Hmod : Forall moderate a) :
  p25 <$> get_dist_stats (Some (RawSample a))
  = p25 <$> get_dist_stats (Some (RawSample b))
  /\ p50 <$> get_dist_stats (Some (RawSample a))
     = p50 <$> get_dist_stats (Some (RawSample b))
  /\ p75 <$> get_dist_stats (Some (RawSample a))
     = p75 <$> get_dist_stats (Some (RawSample b)).
Proof.
  assert (Hmodb : Forall moderate b).
  { rewrite List.Forall_forall in *. intros z Hz. apply Hmod.
    eapply Permutation_in; [apply Permutation_sym, Hperm|exact Hz]. }
  cbn [get_dist_stats]. rewrite (moderate_not_nan a Hmod), (moderate_not_nan b Hmodb).
  assert (El : len a = len b) by (unfold len; rewrite (Permutation_length Hperm); reflexivity).
  assert (Eq : forall q, np_percentile a q = np_percentile b q).
  { intros q. unfold np_percentile. rewrite (np_sort_perm_eq a b Hmod Hperm), El.
    reflexivity. }
  rewrite El, !Eq. destruct (len b =? 0); repeat split.
Qed.

Lemma quartiles_order_independent_witness :
  p25 <$> get_dist_stats (Some (RawSample [f10; f20; f30; f40]))
  = p25 <$> get_dist_stats (Some (RawSample [f20; f10; f30; f40]))
  /\ p50 <$> get_dist_stats (Some (RawSample [f10; f20; f30; f40]))
     = p50 <$> get_dist_stats (Some (RawSample [f20; f10; f30; f40]))
  /\ p75 <$> get_dist_stats (Some (RawSample [f10; f20; f30; f40]))
     = p75 <$> get_dist_stats (Some (RawSample [f20; f10; f30; f40])).
Proof.
  apply (quartiles_order_independent [f10; f20; f30; f40] [f20; f10; f30; f40]).
  - apply perm_swap.
  - exact moderate_samples.
Defined.

(** ** The rank of the median *)

Lemma ltb_irrefl x : F64.ltb x x = false.
Proof.
  unfold F64.ltb, SFltb, SFcompare. destruct x as [s|s| |s m e]; try reflexivity.
  - destruct s; reflexivity.
  - destruct s; rewrite Z.compare_refl, ?Pos.compare_cont_refl; reflexivity.
Qed.

Lemma leb_not_ltb p y : F64.leb p y = true -> F64.ltb y p = false.
Proof.
  intros H. destruct (F64.ltb y p) eqn:E; [|reflexivity].
  unfold F64.ltb, F64.leb in *.
  pose proof (SFltb_SFleb_trans _ _ _ E H) as C.
  change (F64.ltb y y = true) in C. rewrite ltb_irrefl in C. discriminate.
Qed.

Lemma count_lt_cons y s p :
  count_lt (y :: s) p = (if F64.ltb y p then 1 else 0) + count_lt s p.
Proof.
  unfold count_lt, len. cbn [List.filter]. destruct (F64.ltb y p); cbn [length]; lia.
Qed.

Lemma count_lt_tail s p : forall i : nat,
  (forall j, (i <= j < length s)%nat -> F64.leb p (nth j s F64.nan) = true) ->
  count_lt s p <= Z.of_nat i.
Proof.
  induction s as [|y s IH]; intros i H.
  - unfold count_lt, len. cbn. lia.
  - rewrite count_lt_cons. destruct i as [|i].
    + rewrite (leb_not_ltb p y) by (apply (H 0%nat); cbn [length]; lia).
      assert (H0 : count_lt s p <= Z.of_nat 0).
      { apply IH. intros j Hj. apply (H (S j)). cbn [length]. lia. }
      lia.
    + assert (H0 : count_lt s p <= Z.of_nat i).
      { apply IH. intros j Hj. apply (H (S j)). cbn [length]. lia. }
      destruct (F64.ltb y p); lia.
Qed.

Lemma count_lt_perm a b x : Permutation a b -> count_lt a x = count_lt b x.
Proof.
  intros Hp. unfold count_lt. rewrite <- !np_sum_count. apply np_sum_perm, Hp.
Qed.

Lemma rank_Q_half k n : 0 <= k -> 2 * k <= n -> 0 < n < 2 ^ 53 -> rank_Q k n <= 50.
Proof.
  intros Hk Hkn Hn. destruct (Z.eq_dec k 0) as [->|Hk0].
  - rewrite rank_Q_0. lia.
  - unfold rank_Q.
    assert (EK : (RN (inject_Z k) == inject_Z k)%Q) by (apply RN_small_Z; lia).
    assert (EN : (RN (inject_Z n) == inject_Z n)%Q) by (apply RN_small_Z; lia).
    assert (HK : (0 < inject_Z k)%Q) by (apply inject_Z_pos; lia).
    assert (HN : (0 < inject_Z n)%Q) by (apply inject_Z_pos; lia).
    assert (Hle : (inject_Z k / inject_Z n <= 1 # 2)%Q).
    { apply Qle_shift_div_r; [exact HN|].
      assert (H2 : (inject_Z (2 * k) <= inject_Z n)%Q) by (rewrite <- Zle_Qle; exact Hkn).
      rewrite inject_Z_mult in H2. change (inject_Z 2) with 2%Q in H2. lra. }
    assert (Hpos : (0 < inject_Z k / inject_Z n)%Q) by (apply Qdiv_pos; assumption).
    assert (Ehalf : (RN (1 # 2) == 1 # 2)%Q).
    { assert (E : ((1 # 2) == inject_Z 1 * pow2 (-1))%Q) by reflexivity.
      rewrite E. apply RN_dyadic. lia. }
    assert (H1 : (RN (inject_Z k / inject_Z n) <= 1 # 2)%Q).
    { rewrite <- Ehalf. apply RN_mono; assumption. }
    pose proof (RN_pos _ Hpos) as P1.
    assert (H2 : (RN (RN (inject_Z k / inject_Z n) * 100) <= 50)%Q).
    { assert (E50 : (RN (inject_Z 50) == inject_Z 50)%Q) by (apply RN_small_Z; lia).
      change (inject_Z 50) with 50%Q in E50. rewrite <- E50.
      apply RN_mono; lra. }
    assert (E : (RN (RN (RN (inject_Z k) / RN (inject_Z n)) * 100)
                 == RN (RN (inject_Z k / inject_Z n) * 100))%Q).
    { rewrite EK, EN. reflexivity. }
    rewrite (Qrne_comp _ _ E).
    change 50 with (Qrne (inject_Z 50)). apply Qrne_mono. exact H2.
Qed.

Lemma median_count arr :
  Forall moderate arr -> 1 <= len arr < 2 ^ 50 ->
  2 * count_lt arr (np_percentile arr 50) <= len arr.
Proof.
  intros Hmod Hlen.
  destruct (quartile_value arr 2 Hmod Hlen ltac:(lia)) as (Ha & Hb & Hab & Hp & Hval).
  destruct (quartile_index_bounds (len arr) 2 ltac:(lia) ltac:(lia)) as [I1 I2].
  change (25 * 2) with 50 in *.
  set (p := np_percentile arr 50) in *.
  set (k := (len arr - 1) * 2) in *.
  set (s := np_sort arr) in *.
  assert (Hs : sorted_Q s) by (apply np_sort_sorted, Hmod).
  assert (Hms : Forall moderate s) by (apply np_sort_Forall, Hmod).
  assert (Hls : length s = length arr) by apply np_sort_length.
  rewrite (count_lt_perm arr s) by (apply Permutation_sym, np_sort_perm).
  destruct (moderate_value _ Ha) as [[Ha0 _] EA].
  destruct (moderate_value _ Hb) as [_ EB].
  assert (HA : (0 < B2Q (nth (Z.to_nat (k / 4)) s F64.nan))%Q).
  { eapply Qlt_le_trans; [apply (pow2_pos (-948))|exact Ha0]. }
  assert (Hk : 0 <= k mod 4 <= 3) by (pose proof (Z.mod_pos_bound k 4); lia).
  pose proof (lerp_Q_bounds _ _ HA Hab EA EB (k mod 4) Hk) as [_ U].
  rewrite <- Hval in U.
  assert (Hge : forall i j, (i <= j < length s)%nat ->
                 (B2Q p <= B2Q (nth i s F64.nan))%Q ->
                 F64.leb p (nth j s F64.nan) = true).
  { intros i j Hj Hpi.
    assert (Hmj : moderate (nth j s F64.nan)).
    { rewrite List.Forall_nth in Hms. apply Hms. lia. }
    apply pnormal_leb; [exact Hp|apply moderate_pnormal, Hmj|].
    pose proof (sorted_Q_nth s i j F64.nan Hs Hj). lra. }
  unfold len in *.
  destruct (Z.eq_dec (k mod 4) 0) as [E0|E0].
  - rewrite E0 in Hval. cbn [lerp_Q] in Hval.
    pose proof (count_lt_tail s p (Z.to_nat (k / 4))
                  (fun j Hj => Hge _ j Hj ltac:(lra))) as Hc.
    rewrite Z2Nat.id in Hc by lia.
    assert (k / 4 * 4 <= k) by (pose proof (Z.mul_div_le k 4); lia).
    subst k. lia.
  - pose proof (count_lt_tail s p
                  (Z.to_nat (Z.min (k / 4 + 1) (Z.of_nat (length arr) - 1)))
                  (fun j Hj => Hge _ j Hj U)) as Hc.
    rewrite Z2Nat.id in Hc by lia.
    assert (Hd : k = 4 * (k / 4) + k mod 4) by (apply Z.div_mod; lia).
    pose proof (Z.mod_pos_bound k 4 ltac:(lia)) as Hr.
    subst k. lia.
Qed.

Lemma rank_of_stats_total (o : option dist_obj) (st : stats) (x : float) :
  get_dist_stats o = Some st ->
  (forall a, o = Some (RawSample a) -> len a <= PY_SSIZE_T_MAX) ->
  F64.isnan x = false ->
  exists pr, percentile_rank (values st) x = Ok pr.
Proof.
  intros Hst Hfit Hx. destruct o as [[d|a]|]; [| |discriminate].
  - injection Hst as <-. eexists. reflexivity.
  - specialize (Hfit a eq_refl). unfold PY_SSIZE_T_MAX in Hfit.
    destruct (values st) as [arr|] eqn:Hv; [|eexists; reflexivity].
    destruct (get_dist_stats_raw_fields _ _ _ Hst Hv) as (Hne & Hn & _).
    assert (Hle : len arr <= len a).
    { cbn [get_dist_stats] in Hst. destruct (len _ =? 0); [discriminate|].
      injection Hst as <-. cbn [values] in Hv. injection Hv as <-.
      apply filter_len_le. }
    rewrite percentile_rank_eval; [eexists; reflexivity|assumption|lia|assumption].
Qed.

(** X14: the two utilities agree on the middle: for a cleaned sample of
    fewer than 2^50 positive normal numbers between 2^-948 and 2^1013, the
    rank of the median p50 against that sample is at most 50. *)
Theorem median_rank_at_most_50 (a : list float) (st : stats) (arr : list float)
  (m : float)
  (Hst : get_dist_stats (Some (RawSample a)) = Some st)
  (Hv : values st = Some arr)
  (Hmod : Forall moderate arr) (Hlen : len arr < 2 ^ 50)
  (Hm : p50 st = Some m) :
  exists r, percentile_rank (values st) m = Ok (Some r) /\ 0 <= r <= 50.
Proof.
  destruct (get_dist_stats_raw_fields _ _ _ Hst Hv) as (Hne & Hn & _ & H50 & _).
  rewrite H50 in Hm. injection Hm as <-. rewrite Hv.
  destruct (quartile_value arr 2 Hmod ltac:(lia) ltac:(lia)) as (_ & _ & _ & Hp & _).
  change (25 * 2) with 50 in Hp.
  assert (Hx : F64.isnan (np_percentile arr 50) = false).
  { destruct Hp as (M & E & -> & _). reflexivity. }
  rewrite percentile_rank_eval; [|assumption|lia|assumption].
  eexists. split; [reflexivity|].
  pose proof (count_lt_bounds arr (np_percentile arr 50)) as Hc.
  pose proof (median_count arr Hmod ltac:(lia)) as Hmc.
  split; [apply rank_Q_range; lia|apply rank_Q_half; lia].
Qed.

Lemma median_rank_at_most_50_witness :
  exists r,
    percentile_rank
      (values {| p25 := Some f17_5; p50 := Some f25; p75 := Some f32_5;
                 values := Some [f10; f20; f30; f40] |}) f25 = Ok (Some r)
    /\ 0 <= r <= 50.
Proof.
  apply (median_rank_at_most_50 [F64.nan; f10; f20; f30; f40]
           {| p25 := Some f17_5; p50 := Some f25; p75 := Some f32_5;
              values := Some [f10; f20; f30; f40] |} [f10; f20; f30; f40] f25).
  - vm_compute. reflexivity.
  - reflexivity.
  - exact moderate_samples.
  - vm_compute. reflexivity.
  - reflexivity.
Defined.

(** ** Raw samples and the whole page *)

Lemma count_lt_clean a x :
  count_lt (List.filter (fun v => negb (F64.isnan v)) a) x = count_lt a x.
Proof.
  induction a as [|v a IH]; [reflexivity|]. cbn [List.filter].
  destruct (F64.isnan v) eqn:Hv; cbn [negb]; rewrite !count_lt_cons, ?IH.
  - destruct v; try discriminate. reflexivity.
  - reflexivity.
Qed.

Lemma len_clean a :
  len (List.filter (fun v => negb (F64.isnan v)) a)
  = len a - len (List.filter F64.isnan a).
Proof.
  unfold len. induction a as [|v a IH]; [reflexivity|]. cbn [List.filter].
  destruct (F64.isnan v); cbn [negb length]; lia.
Qed.

(** X15: ranking against the statistics of a raw sample of fewer than 2^44
    entries: the NaN entries count neither as below the value nor in the
    size, so the rank is a nearest integer to 100 times the number of raw
    entries strictly below the value over the number of entries that are
    not NaN. *)
Theorem rank_against_raw_sample (a : list float) (st : stats) (x : float)
  (Hst : get_dist_stats (Some (RawSample a)) = Some st)
  (Hx : F64.isnan x = false) (Hlen : len a < 2 ^ 44) :
  exists r,
    percentile_rank (values st) x = Ok (Some r)
    /\ 0 < len a - len (List.filter F64.isnan a)
    /\ 2 * Z.abs ((len a - len (List.filter F64.isnan a)) * r - 100 * count_lt a x)
       <= len a - len (List.filter F64.isnan a).
Proof.
  cbn [get_dist_stats] in Hst.
  pose proof (filter_len_le (fun v => negb (F64.isnan v)) a) as Hle.
  pose proof (count_lt_clean a x) as Hc. pose proof (len_clean a) as Hl.
  set (arr := List.filter (fun v => negb (F64.isnan v)) a) in *.
  destruct (len arr =? 0) eqn:E; [discriminate|]. injection Hst as <-.
  cbn [values]. apply Z.eqb_neq in E.
  assert (Hne : arr <> []) by (intros H; rewrite H in E; apply E; reflexivity).
  assert (Hn : 0 < len arr) by (unfold len in *; lia).
  rewrite percentile_rank_eval by (assumption || lia).
  eexists. split; [reflexivity|]. rewrite <- Hl, <- Hc. split; [exact Hn|].
  pose proof (count_lt_bounds arr x) as Hb.
  destruct (Z.eq_dec (count_lt arr x) 0) as [E0|E0].
  - rewrite E0, rank_Q_0. lia.
  - apply rank_Q_near; lia.
Qed.

Lemma rank_against_raw_sample_witness :
  exists r,
    percentile_rank
      (values {| p25 := Some f17_5; p50 := Some f25; p75 := Some f32_5;
                 values := Some [f10; f20; f30; f40] |}) f30 = Ok (Some r)
    /\ 0 < len [F64.nan; f10; f20; f30; f40]
           - len (List.filter F64.isnan [F64.nan; f10; f20; f30; f40])
    /\ 2 * Z.abs ((len [F64.nan; f10; f20; f30; f40]
                   - len (List.filter F64.isnan [F64.nan; f10; f20; f30; f40])) * r
                  - 100 * count_lt [F64.nan; f10; f20; f30; f40] f30)
       <= len [F64.nan; f10; f20; f30; f40]
          - len (List.filter F64.isnan [F64.nan; f10; f20; f30; f40]).
Proof.
  apply (rank_against_raw_sample [F64.nan; f10; f20; f30; f40]
           {| p25 := Some f17_5; p50 := Some f25; p75 := Some f32_5;
              values := Some [f10; f20; f30; f40] |} f30).
  - vm_compute. reflexivity.
  - reflexivity.
  - vm_compute. reflexivity.
Defined.

Lemma form_columns (number_input : string -> float) (key : string) :
  In key MODEL_ALL_FEATURES ->
  input_df_filled (user_input number_input) !! key
  = Some (fillna f_zero (number_input (widget_label key))).
Proof.
  intros Hin. cbv [MODEL_ALL_FEATURES MODEL_CORE_FEATURES MODEL_DYNAMIC_FEATURES app In] in Hin.
  repeat (destruct Hin as [<-|Hin]; [vm_compute; reflexivity|]).
  destruct Hin.
Qed.

Lemma baseline_plot_total e2p df :
  samples_fit e2p -> is_Some (df !! base_e2_key) ->
  exists view, baseline_plot e2p df = Ok view.
Proof.
  intros Hfit [val Hval]. unfold baseline_plot, column. rewrite Hval.
  cbn [mbind result_bind].
  destruct (get_dist_stats (e2p !! "基础E2")) as [st|] eqn:Hst; [|eauto].
  destruct (F64.isnan val) eqn:Hn; cbn [negb]; [eauto|].
  destruct (rank_of_stats_total _ st val Hst) as [pr ->]; [|assumption|].
  - intros a Ha. apply (Hfit _ _ Ha).
  - cbn [mbind result_bind]. eauto.
Qed.

(** X16: whatever the widgets return and whatever reference table is
    loaded, as long as its raw samples fit in memory, the serum-E2 loop on a
    fresh figure and the baseline section both run to completion on the
    frame built from the form: no [KeyError], no failure of [round]. *)
Theorem app_plots_run (e2_percentiles : gmap string dist_obj)
  (number_input : string -> float)
  (Hfit : samples_fit e2_percentiles) :
  exists fig view,
    plot_loop e2_percentiles (input_df_filled (user_input number_input))
      E2_FIELDS empty_figure = Ok fig
    /\ baseline_plot e2_percentiles (input_df_filled (user_input number_input))
       = Ok view.
Proof.
  set (df := input_df_filled (user_input number_input)).
  assert (Hcol : forall key, In key MODEL_ALL_FEATURES -> is_Some (df !! key)).
  { intros key Hin. subst df. rewrite form_columns by exact Hin. eauto. }
  unfold E2_FIELDS. cbn [plot_loop].
  destruct (plot_field_total e2_percentiles df 1 "血E2_1" empty_figure Hfit)
    as [fig1 ->]; [apply Hcol; cbv [MODEL_ALL_FEATURES MODEL_CORE_FEATURES MODEL_DYNAMIC_FEATURES app In]; tauto|].
  cbn [mbind result_bind].
  destruct (plot_field_total e2_percentiles df 2 "血E2_2" fig1 Hfit)
    as [fig2 ->]; [apply Hcol; cbv [MODEL_ALL_FEATURES MODEL_CORE_FEATURES MODEL_DYNAMIC_FEATURES app In]; tauto|].
  cbn [mbind result_bind].
  destruct (plot_field_total e2_percentiles df 3 "血E2_3" fig2 Hfit)
    as [fig3 ->]; [apply Hcol; cbv [MODEL_ALL_FEATURES MODEL_CORE_FEATURES MODEL_DYNAMIC_FEATURES app In]; tauto|].
  cbn [mbind result_bind].
  destruct (baseline_plot_total e2_percentiles df Hfit) as [view ->];
    [apply Hcol; cbv [MODEL_ALL_FEATURES MODEL_CORE_FEATURES MODEL_DYNAMIC_FEATURES app In]; tauto|].
  eauto.
Qed.

Lemma app_plots_run_witness :
  exists fig view,
    plot_loop sample_table (input_df_filled (user_input (fun _ => f20)))
      E2_FIELDS empty_figure = Ok fig
    /\ baseline_plot sample_table (input_df_filled (user_input (fun _ => f20)))
       = Ok view.
Proof.
  apply (app_plots_run sample_table (fun _ => f20)).
  intros key a H. unfold sample_table in H.
  apply lookup_insert_Some in H as [[_ H]|[_ H]];
    [injection H as <-; vm_compute; discriminate|].
  apply lookup_insert_Some in H as [[_ H]|[_ H]];
    [injection H as <-; vm_compute; discriminate|].
  rewrite lookup_empty in H. discriminate.
Defined.
